(** * Batch translation engine: executor, request pipeline and scheduler

  A shallow embedding of [core/translation_executor.py], [main.py] and
  [builders/pipeline_builder.py], together with the properties of the
  batch execution engine that the specification states about them and
  further properties of the same code.

  Conventions of the embedding:
  - Python [str] values are [string]s, one character per byte.  On ASCII
    text (every character below 128) a character is a code point and the
    text primitives ([len], [lower], [strip], [in]) are Python's.  On other
    text they are not: [len] counts code points, [strip] and [lower] know
    the white space and the letters of Unicode.  What is stated about the
    text of a message is stated for ASCII text.
  - Python [dict]s with string keys are [gmap string _]; a key that may be
    missing is read with [!!].
  - Python [int]s are [Z].
  - A call that may raise returns an [Outcome]; [try]/[except] is written
    out as a match on it.
  - The mutable orchestrator object is an explicit state record that is
    threaded through every call. *)

From Stdlib Require Import ZArith Ascii.
From stdpp Require Import base decidable option list gmap strings.

Local Open Scope Z_scope.

(** ** Text primitives *)

(** The primitives of [str] on ASCII text. *)
Module Text.

(** [str.lower] on one ASCII character: the letters A to Z are lowered,
    every other character is kept. *)
Definition lower_ascii (c : ascii) : ascii :=
  let n := nat_of_ascii c in
  if ((65 <=? n) && (n <=? 90))%nat then ascii_of_nat (n + 32) else c.

Fixpoint lower (s : string) : string :=
  match s with
  | EmptyString => EmptyString
  | String c s' => String (lower_ascii c) (lower s')
  end.

(** [str.isspace] on one ASCII character: tab, line feed, vertical tab,
    form feed, carriage return, the four separators 28..31 and space. *)
Definition isspace (c : ascii) : bool :=
  let n := nat_of_ascii c in
  (((9 <=? n) && (n <=? 13)) || ((28 <=? n) && (n <=? 32)))%nat.

Fixpoint lstrip (s : string) : string :=
  match s with
  | EmptyString => EmptyString
  | String c s' => if isspace c then lstrip s' else s
  end.

(** Drops the trailing white space: a character is kept when something
    that is kept follows it, or when it is not white space itself. *)
Fixpoint rstrip (s : string) : string :=
  match s with
  | EmptyString => EmptyString
  | String c s' =>
      match rstrip s' with
      | EmptyString => if isspace c then EmptyString else String c EmptyString
      | r => String c r
      end
  end.

(** [str.strip()] on ASCII text. *)
Definition strip (s : string) : string := rstrip (lstrip s).

(** [s.startswith(p)] *)
Fixpoint startswith (p s : string) : bool :=
  match p, s with
  | EmptyString, _ => true
  | String _ _, EmptyString => false
  | String a p', String b s' => bool_decide (a = b) && startswith p' s'
  end.

(** [p in s] for two strings: [p] occurs in [s] as a contiguous run. *)
Fixpoint contains (p s : string) : bool :=
  startswith p s ||
  match s with
  | EmptyString => false
  | String _ s' => contains p s'
  end.

(** [len(s)]: on ASCII text the number of characters. *)
Definition len (s : string) : Z := Z.of_nat (String.length s).

(** [not s] for a string. *)
Definition is_empty (s : string) : bool :=
  match s with EmptyString => true | _ => false end.

End Text.

(** ** Exceptions and outcomes *)

(** The exceptions a worker can see: [asyncio.TimeoutError] (and
  [concurrent.futures.TimeoutError]) and any other subclass of
  [Exception], kept with its message. *)
Inductive exn : Type :=
| TimeoutError
| Error (msg : string).

Inductive Outcome (A : Type) : Type :=
| Return (a : A)
| Raise (e : exn).
Arguments Return {A} a.
Arguments Raise {A} e.

(** ** Constants ([config/constants.py]) *)

Module AppConstants.

Definition REPETITIVE_PATTERNS : list string :=
  [ "a proper translation would be";
    "should be a statement matching";
    "is not appropriate";
    "let me check";
    "i need to";
    "looking at the" ].

Definition TOOL_PATTERNS : list string :=
  [ "calling tool";
    "using tool";
    "tool call";
    "invoke";
    "executing" ].

Definition MODEL_PRIORITY_LIST : list string :=
  [ "openai/gpt-oss-20b";
    "qwen/qwen3-32b";
    "gemma2-9b-it";
    "llama-3.3-70b-versatile";
    "meta-llama/llama-4-maverick-17b-128e-instruct";
    "moonshotai/kimi-k2-instruct";
    "openai/gpt-oss-120b";
    "deepseek-r1-distill-llama-70b" ].

End AppConstants.

(** ** Agent responses *)

(** A language-to-text mapping, the payload of the tool call. *)
Abbreviation Translations := (gmap string string).

(** One entry of [msg.tool_calls]: a dict read with [call.get("name")] and
  [call.get("args", {})]; the arguments map a name to a mapping. *)
Record ToolCall : Type := mkToolCall {
  call_name : option string;
  call_args : option (gmap string Translations)
}.

(** A message of the response.  [tool_calls] and [usage_metadata] are
  attributes that a message class may lack ([None] here stands for
  [hasattr] being false). *)
Record Message : Type := mkMessage {
  content : string;
  tool_calls : option (list ToolCall);
  usage_metadata : option (gmap string Z)
}.

(** The response dict; [None] when the key ["messages"] is absent (which
  includes the empty dict). *)
Record Response : Type := mkResponse {
  messages : option (list Message)
}.

(** [hasattr(msg, "tool_calls") and msg.tool_calls] *)
Definition has_tool_calls (msg : Message) : bool :=
  match tool_calls msg with
  | Some (_ :: _) => true
  | _ => false
  end.

(** ** The executor ([core/translation_executor.py]) *)

Module TranslationExecutor.

Definition TOOL_NAME : string := "update_translations_in_memory".

(** The inner loop of [extract_translations] over the calls of one
    message: the first call with the tool's name whose arguments carry
    ["translations"]. *)
Fixpoint first_translations (calls : list ToolCall) : option Translations :=
  match calls with
  | [] => None
  | call :: rest =>
      if bool_decide (call_name call = Some TOOL_NAME) then
        match default ∅ (call_args call) !! "translations" with
        | Some tr => Some tr
        | None => first_translations rest
        end
      else first_translations rest
  end.

Fixpoint extract_from_messages (msgs : list Message) : option Translations :=
  match msgs with
  | [] => None
  | msg :: rest =>
      if has_tool_calls msg then
        match first_translations (default [] (tool_calls msg)) with
        | Some tr => Some tr
        | None => extract_from_messages rest
        end
      else extract_from_messages rest
  end.

(** [extract_translations]: [response.get("messages", [])] is scanned in
    order; [None] when nothing is found. *)
Definition extract_translations (response : Response) : option Translations :=
  extract_from_messages (default [] (messages response)).

(** [msg.usage_metadata] is truthy: present and a non-empty dict. *)
Definition has_usage (msg : Message) : option (gmap string Z) :=
  match usage_metadata msg with
  | Some u => if bool_decide (u = ∅) then None else Some u
  | None => None
  end.

Fixpoint usage_of (msgs : list Message) : Z * Z :=
  match msgs with
  | [] => (0, 0)
  | msg :: rest =>
      match has_usage msg with
      | Some u => (default 0 (u !! "input_tokens"), default 0 (u !! "output_tokens"))
      | None => usage_of rest
      end
  end.

(** [extract_token_usage]: the last message with usage metadata decides. *)
Definition extract_token_usage (response : Response) : Z * Z :=
  usage_of (reverse (default [] (messages response))).

(** [any(p.lower() in content_lower for p in patterns)] *)
Definition any_pattern (patterns : list string) (content_lower : string) : bool :=
  existsb (λ p, Text.contains (Text.lower p) content_lower) patterns.

(** [is_valid_response].  Indexing an empty message list with [-1] raises
    [IndexError], which the function's own handler turns into [False]. *)
Definition is_valid_response (response : Response) : bool :=
  match messages response with
  | None => false
  | Some msgs =>
      match last msgs with
      | None => false
      | Some last_message =>
          if has_tool_calls last_message then true
          else
            let content := content last_message in
            if Text.is_empty content || (Text.len (Text.strip content) <? 5) then false
            else
              let content_lower := Text.lower content in
              if any_pattern AppConstants.REPETITIVE_PATTERNS content_lower then false
              else if any_pattern AppConstants.TOOL_PATTERNS content_lower then false
              else true
      end
  end.

(** [not translations] for the value returned by [extract_translations]. *)
Definition falsy (translations : option Translations) : bool :=
  match translations with
  | None => true
  | Some tr => bool_decide (tr = ∅)
  end.

(** The agent as the executor sees it: building the model, the tool and
    the messages from the three arguments and awaiting
    [asyncio.wait_for(agent.ainvoke(...), timeout)] either gives a response
    or raises. *)
Definition Agent : Type := string → string → list string → Outcome Response.

(** The body of the [try] block of [execute_async]. *)
Definition execute_body (agent : Agent) (ko_text context : string) (target_langs : list string)
  : Outcome (bool * Translations * Z * Z) :=
  match agent ko_text context target_langs with
  | Raise e => Raise e
  | Return response =>
      let '(input_t, output_t) := extract_token_usage response in
      if negb (is_valid_response response) then Return (false, ∅, input_t, output_t)
      else
        let translations := extract_translations response in
        if falsy translations then Return (false, ∅, input_t, output_t)
        else Return (true, default ∅ translations, input_t, output_t)
  end.

(** [execute_async]: the body under its two handlers. *)
Definition execute_async (agent : Agent) (ko_text context : string) (target_langs : list string)
  : Outcome (bool * Translations * Z * Z) :=
  match execute_body agent ko_text context target_langs with
  | Return r => Return r
  | Raise TimeoutError => Return (false, ∅, 0, 0)
  | Raise (Error _) => Return (false, ∅, 0, 0)
  end.

(** [execute_sync] runs [execute_async] on a fresh event loop and returns
    its result; anything raised is turned into the failure tuple. *)
Definition execute_sync (agent : Agent) (ko_text context : string) (target_langs : list string)
  : bool * Translations * Z * Z :=
  match execute_async agent ko_text context target_langs with
  | Return r => r
  | Raise _ => (false, ∅, 0, 0)
  end.

End TranslationExecutor.

(** ** Requests *)

Module Request.

(** Modelled from the spec: [core/translation_request.py] is not among the
    sources.  The fields are those of the spec's Request (section 3) under
    the names the tests and [main.py] use; a fresh request has no outcome,
    no attempts and no tokens, as [test_valid_request] and
    [test_increment_attempt] check. *)
Record t : Type := mk {
  index : Z;
  ko_text : string;
  context : string;
  target_langs : list string;
  success : bool;
  translations : Translations;
  error : option string;
  attempt_count : Z;
  input_tokens : Z;
  output_tokens : Z
}.

(** Modelled from the spec: the constructor, as [main.py] and the tests
    call it; a request is created fresh for every processing call. *)
Definition new (index : Z) (ko_text context : string) (target_langs : list string) : t :=
  mk index ko_text context target_langs false ∅ None 0 0 0.

(** Modelled from the spec: a request is valid iff its source text is not
    empty or white space only and it has a target language (sections 3 and
    4.1; [test_invalid_empty_text], [test_invalid_empty_langs]). *)
Definition is_valid (r : t) : bool :=
  negb (Text.is_empty (Text.strip (ko_text r))) &&
  match target_langs r with [] => false | _ => true end.

(** Modelled from the spec: the success transition sets the translations
    and clears the error ([test_mark_success]). *)
Definition mark_success (tr : Translations) (r : t) : t :=
  mk (index r) (ko_text r) (context r) (target_langs r)
     true tr None (attempt_count r) (input_tokens r) (output_tokens r).

(** Modelled from the spec: the failure transition sets the error
    ([test_mark_failure]). *)
Definition mark_failure (msg : string) (r : t) : t :=
  mk (index r) (ko_text r) (context r) (target_langs r)
     false (translations r) (Some msg) (attempt_count r) (input_tokens r) (output_tokens r).

(** Modelled from the spec: one more attempt ([test_increment_attempt]). *)
Definition increment_attempt (r : t) : t :=
  mk (index r) (ko_text r) (context r) (target_langs r)
     (success r) (translations r) (error r) (attempt_count r + 1) (input_tokens r) (output_tokens r).

(** Modelled from the spec: token usage is accumulated on the request
    (section 4.2). *)
Definition add_tokens (input_t output_t : Z) (r : t) : t :=
  mk (index r) (ko_text r) (context r) (target_langs r)
     (success r) (translations r) (error r) (attempt_count r)
     (input_tokens r + input_t) (output_tokens r + output_t).

End Request.

(** ** The orchestrator's state and its surroundings *)

Module Settings.

(** The fields of [SettingsManager] that the engine reads
    ([config/settings.py] is not among the sources, so they are taken as
    given). *)
Record t : Type := mk {
  lang_codes_list : list string;
  context_size : Z;
  max_retries : Z;
  worker_count : Z;
  batch_size : Z;
  save_interval : Z;
  model_name : string
}.

End Settings.

(** What ends the [try] block of a run: the user's interrupt, or an
    exception: the [ValueError] of a pool without workers, the
    [TimeoutError] of [as_completed], an [IndexError] or a
    [ZeroDivisionError] of the run's own arithmetic. *)
Inductive Fault : Type :=
| KeyboardInterrupt
| Failure (msg : string).

(** Everything the engine does not decide itself.
    - [signal n]: another thread sets the shutdown flag just before the
      [n]-th time the flag is read.
    - [backend n]: the agent as it answers the [n]-th call of the
      executor.
    - [completion n batch]: the order in which [as_completed] yields the
      futures of the [n]-th batch.
    - [interrupt n]: a fault raised in the main thread when it starts to
      wait for the results of the [n]-th batch.
    - [nap n]: the user's interrupt arrives during the [n]-th sleep of the
      retry rounds.
    - [get_text], [get_context], [total_subtitles]: the segment store,
      which is not among the sources; a call that reads from it returns
      or raises. *)
Record Environment : Type := mkEnvironment {
  signal : nat → bool;
  backend : nat → TranslationExecutor.Agent;
  completion : nat → list Z → list Z;
  interrupt : nat → option Fault;
  nap : nat → bool;
  get_text : Z → Outcome string;
  get_context : Z → Z → Outcome string;
  total_subtitles : Z
}.

(** The record written by [save_progress]. *)
Record Progress : Type := mkProgress {
  lang_codes_str : string;
  a_index : Z;
  progress_model_name : string;
  progress_input_tokens : Z;
  progress_output_tokens : Z
}.

(** The end-of-run statistics, as [_print_statistics] reports them. *)
Record Statistics : Type := mkStatistics {
  stat_total : Z;
  stat_initial_success : Z;
  stat_retry_success : Z;
  stat_total_success : Z;
  stat_final_failed : Z;
  stat_input_tokens : Z;
  stat_output_tokens : Z
}.

(** What a run does that can be seen from outside, and the points of its
    control flow that the properties speak about. *)
Inductive Event : Type :=
| IsSet (flag : bool)
| Submitted (batch : list Z)
| Finished (idx : Z) (result : Outcome bool)
| Persisted (idx : Z) (tr : Translations)
| MarkedFailed (idx : Z)
| SavedProgress (p : Progress)
| SavedAll
| Printed (s : Statistics)
| PrintedUntilRate (total initial_success retry_success final_failed : Z).

(** The orchestrator object.  [observed] counts the reads of the flag and
    [attempts] keeps what the executor returned on each call (newest
    first); [trace] is the history of events (newest first). *)
Record Orchestrator : Type := mkOrchestrator {
  shutdown_event : bool;
  total_input_tokens : Z;
  total_output_tokens : Z;
  observed : nat;
  attempts : list (bool * Translations * Z * Z);
  trace : list Event
}.

(** The state after [__init__]. *)
Definition initial : Orchestrator := mkOrchestrator false 0 0 0 [] [].

Definition log (e : Event) (st : Orchestrator) : Orchestrator :=
  mkOrchestrator (shutdown_event st) (total_input_tokens st) (total_output_tokens st)
    (observed st) (attempts st) (e :: trace st).

(** [self._shutdown_event.set()] *)
Definition set_shutdown (st : Orchestrator) : Orchestrator :=
  mkOrchestrator true (total_input_tokens st) (total_output_tokens st)
    (observed st) (attempts st) (trace st).

Definition add_totals (input_t output_t : Z) (st : Orchestrator) : Orchestrator :=
  mkOrchestrator (shutdown_event st)
    (total_input_tokens st + input_t) (total_output_tokens st + output_t)
    (observed st) (attempts st) (trace st).

Definition record_attempt (r : bool * Translations * Z * Z) (st : Orchestrator) : Orchestrator :=
  mkOrchestrator (shutdown_event st) (total_input_tokens st) (total_output_tokens st)
    (observed st) (r :: attempts st) (trace st).

(** [x or default] for an optional integer argument. *)
Definition or_default (x : option Z) (default : Z) : Z :=
  match x with
  | Some v => if v =? 0 then default else v
  | None => default
  end.

(** [list(range(lo, hi))] *)
Definition range (lo hi : Z) : list Z := seqZ lo (hi - lo).

Section Engine.

Variable env : Environment.
Variable settings : Settings.t.

(** ** The request pipeline *)

(** Modelled from the spec: the handlers package is not among the sources.
    Validation stage (section 4.1): fails closed on an invalid request,
    marks it failed with a descriptive error and stops the chain; the
    result says whether the chain goes on. *)
Definition validation_handle (request : Request.t) : bool * Request.t :=
  if Request.is_valid request then (true, request)
  else (false, Request.mark_failure "Invalid request: empty text or no target languages" request).

(** Modelled from the spec: the attempts of the execution stage (section
    4.2).  Each attempt counts itself, calls the executor, adds the tokens
    the executor returns to the request whatever the result, and stops the
    loop on success; a failed attempt leaves its error on the request. *)
Fixpoint attempt_loop (budget : nat) (request : Request.t) (st : Orchestrator)
  : Request.t * Orchestrator :=
  match budget with
  | O => (request, st)
  | S budget' =>
      let request := Request.increment_attempt request in
      let result :=
        TranslationExecutor.execute_sync (backend env (length (attempts st)))
          (Request.ko_text request) (Request.context request) (Request.target_langs request) in
      let st := record_attempt result st in
      let '(ok, tr, input_t, output_t) := result in
      let request := Request.add_tokens input_t output_t request in
      if ok then (Request.mark_success tr request, st)
      else attempt_loop budget' (Request.mark_failure "Translation attempt failed" request) st
  end.

(** Modelled from the spec: execution stage with [max_attempts] attempts. *)
Definition execution_handle (max_attempts : Z) (request : Request.t) (st : Orchestrator)
  : Request.t * Orchestrator :=
  attempt_loop (Z.to_nat max_attempts) request st.

(** Modelled from the spec: persistence stage (section 4.3): a successful
    request has its translations written to the segment store under its
    index, a failed one is recorded as failed. *)
Definition persistence_handle (request : Request.t) (st : Orchestrator) : Orchestrator :=
  if Request.success request
  then log (Persisted (Request.index request) (Request.translations request)) st
  else log (MarkedFailed (Request.index request)) st.

(** Modelled from the spec: logging stage (section 4.4): one log line, the
    request is not changed. *)
Definition logging_handle (request : Request.t) : Request.t := request.

(** Modelled from the spec: how the handlers pass a request on
    ([handlers/base_handler.py] is not among the sources): the stages in
    the order in which [__init__] chains them (validation, execution with
    [settings.max_retries] attempts, persistence, logging), the chain
    stopping when validation fails. *)
Definition pipeline_handle (request : Request.t) (st : Orchestrator)
  : Request.t * Orchestrator :=
  let '(continue, request) := validation_handle request in
  if continue then
    let '(request, st) := execution_handle (Settings.max_retries settings) request st in
    let st := persistence_handle request st in
    (logging_handle request, st)
  else (request, st).

(** ** The orchestrator ([main.py]) *)

(** [self._shutdown_event.is_set()]: the flag as found at this read.  A
    flag that is set stays set: nothing in the program clears it. *)
Definition is_set (st : Orchestrator) : bool * Orchestrator :=
  let flag := shutdown_event st || signal env (observed st) in
  (flag,
   mkOrchestrator flag (total_input_tokens st) (total_output_tokens st)
     (S (observed st)) (attempts st) (IsSet flag :: trace st)).

(** [load_progress]: always 1. *)
Definition load_progress : Z := 1.

(** [save_progress(index)]: the record is written to the index file and
    appended to the history. *)
Definition save_progress (index : Z) (st : Orchestrator) : Orchestrator :=
  let data :=
    mkProgress (String.concat "," (Settings.lang_codes_list settings)) index (Settings.model_name settings)
      (total_input_tokens st) (total_output_tokens st) in
  log (SavedProgress data) st.

(** [self.subtitle_manager.save_all()] *)
Definition save_all (st : Orchestrator) : Orchestrator := log SavedAll st.

(** [process_request(index)].  It has no handler of its own: what the
    segment store raises leaves it. *)
Definition process_request (index : Z) (st : Orchestrator) : Outcome bool * Orchestrator :=
  let '(flag, st) := is_set st in
  if flag then (Return false, st)
  else
    match get_text env index with
    | Raise e => (Raise e, st)
    | Return ko_text =>
        match get_context env index (Settings.context_size settings) with
        | Raise e => (Raise e, st)
        | Return context =>
            let request :=
              Request.new index ko_text context (Settings.lang_codes_list settings) in
            let '(result, st) := pipeline_handle request st in
            let st :=
              if (0 <? Request.input_tokens result) || (0 <? Request.output_tokens result)
              then add_totals (Request.input_tokens result) (Request.output_tokens result) st
              else st in
            (Return (Request.success result), st)
        end
    end.

(** A pool thread running [process_request] for a submitted index, up to the
    completion of its future.  The pool is taken one future at a time, in
    the order of completion: the worker of a future runs, then the scheduler
    handles that future. *)
Definition run_worker (idx : Z) (st : Orchestrator) : Outcome bool * Orchestrator :=
  let '(result, st) := process_request idx st in
  (result, log (Finished idx result) st).

(** Leaving the [with] block waits for every future that was submitted and
    not collected. *)
Fixpoint drain (pending : list Z) (st : Orchestrator) : Orchestrator :=
  match pending with
  | [] => st
  | idx :: rest => drain rest (snd (run_worker idx st))
  end.

(** The counters of [run_batch_translation]. *)
Record Tally : Type := mkTally {
  processed_count : Z;
  success_count : Z;
  failed_indices : list Z
}.

(** The body of the collection loop after the flag test: the [try] around
    [future.result] with its two handlers, then the count. *)
Definition record_result (idx : Z) (result : Outcome bool) (t : Tally) : Tally :=
  let t :=
    match result with
    | Return true => mkTally (processed_count t) (success_count t + 1) (failed_indices t)
    | Return false => mkTally (processed_count t) (success_count t) (failed_indices t ++ [idx])
    | Raise TimeoutError => mkTally (processed_count t) (success_count t) (failed_indices t ++ [idx])
    | Raise (Error _) => mkTally (processed_count t) (success_count t) (failed_indices t ++ [idx])
    end in
  mkTally (processed_count t + 1) (success_count t) (failed_indices t).

(** [for future in as_completed(future_to_index)]: the futures in the order
    of their completion.  The result also has the futures that a [break]
    left uncollected. *)
Fixpoint collect (futures : list Z) (t : Tally) (st : Orchestrator)
  : Tally * list Z * Orchestrator :=
  match futures with
  | [] => (t, [], st)
  | idx :: rest =>
      let '(result, st) := run_worker idx st in
      let '(flag, st) := is_set st in
      if flag then (t, rest, st)
      else collect rest (record_result idx result t) st
  end.

(** The periodic save at the end of a batch. *)
Definition periodic_save (processed_count save_interval current_index batch_size : Z)
    (st : Orchestrator) : Orchestrator :=
  if processed_count `mod` save_interval =? 0
  then save_all (save_progress (current_index + batch_size) st)
  else st.

(** The [while] loop over the batches; [batch_no] counts them.  The result
    has the fault that ended the loop, if any, and the futures still to be
    waited for.  An empty batch makes [batch[0]] raise [IndexError], and a
    save interval of zero makes the test of the periodic save raise
    [ZeroDivisionError].  [fuel] bounds the number of batches; the loop
    never needs more than [total_subs - current_index + 1] of it (see
    [batch_loop_fuel]). *)
Fixpoint batch_loop (fuel : nat) (batch_no : nat) (total_subs batch_size save_interval : Z)
    (current_index : Z) (t : Tally) (st : Orchestrator)
  : option Fault * Tally * list Z * Orchestrator :=
  match fuel with
  | O => (None, t, [], st)
  | S fuel' =>
      if current_index <=? total_subs then
        let '(flag, st) := is_set st in
        if flag then (None, t, [], st)
        else
          let batch := range current_index (Z.min (current_index + batch_size) (total_subs + 1)) in
          match batch with
          | [] => (Some (Failure "IndexError"), t, [], st)
          | _ :: _ =>
              let st := log (Submitted batch) st in
              match interrupt env batch_no with
              | Some fault => (Some fault, t, batch, st)
              | None =>
                  let '(t, pending, st) := collect (completion env batch_no batch) t st in
                  if save_interval =? 0
                  then (Some (Failure "ZeroDivisionError"), t, pending, st)
                  else
                    let st :=
                      periodic_save (processed_count t) save_interval current_index batch_size
                        st in
                    let '(fault, t, pending', st) :=
                      batch_loop fuel' (S batch_no) total_subs batch_size save_interval
                        (current_index + batch_size) t st in
                    (fault, t, pending ++ pending', st)
              end
          end
      else (None, t, [], st)
  end.

(** The items of one retry round.  [succeeded] keeps the indices that were
    retried with success in this round, next to the counter. *)
Fixpoint retry_items (current_failed : list Z) (retry_success : Z)
    (succeeded remaining : list Z) (st : Orchestrator)
  : Z * list Z * list Z * Orchestrator :=
  match current_failed with
  | [] => (retry_success, succeeded, remaining, st)
  | idx :: rest =>
      let '(flag, st) := is_set st in
      if flag then (retry_success, succeeded, remaining, st)
      else
        let '(result, st) := process_request idx st in
        match result with
        | Return true => retry_items rest (retry_success + 1) (succeeded ++ [idx]) remaining st
        | Return false => retry_items rest retry_success succeeded (remaining ++ [idx]) st
        | Raise _ => retry_items rest retry_success succeeded (remaining ++ [idx]) st
        end
  end.

(** One round as the history keeps it: the indices it started from, those
    that succeeded and those that remain. *)
Record Round : Type := mkRound {
  round_failed : list Z;
  round_succeeded : list Z;
  round_remaining : list Z
}.

(** [for retry_round in range(max_retries)]: the rounds, oldest first in
    the history. *)
Fixpoint retry_rounds (rounds : nat) (retry_success : Z) (remaining : list Z)
    (st : Orchestrator) : Z * list Z * list Round * Orchestrator :=
  match rounds with
  | O => (retry_success, remaining, [], st)
  | S rounds' =>
      match remaining with
      | [] => (retry_success, remaining, [], st)
      | _ :: _ =>
          let '(flag, st) := is_set st in
          if flag then (retry_success, remaining, [], st)
          else
            let current_failed := remaining in
            let '(retry_success, succeeded, remaining, st) :=
              retry_items current_failed retry_success [] [] st in
            let st := if 0 <? retry_success then save_all st else st in
            let '(retry_success', remaining', history, st) :=
              retry_rounds rounds' retry_success remaining st in
            (retry_success', remaining',
             mkRound current_failed succeeded remaining :: history, st)
      end
  end.

(** The default of [max_retries] in [_retry_failed_items]. *)
Definition DEFAULT_RETRY_ROUNDS : Z := 2.

(** [_retry_failed_items(failed_indices, max_retries)], as it runs when
    the user does not interrupt it; [_retry_failed_items_napping] below
    has the interrupt. *)
Definition _retry_failed_items (failed_indices : list Z) (max_retries : Z)
    (st : Orchestrator) : Z * Orchestrator :=
  let '(retry_success, _, _, st) :=
    retry_rounds (Z.to_nat max_retries) 0 failed_indices st in
  (retry_success, st).

(** The rounds [_retry_failed_items] goes through. *)
Definition retry_history (failed_indices : list Z) (max_retries : Z)
    (st : Orchestrator) : list Round :=
  let '(_, _, history, _) := retry_rounds (Z.to_nat max_retries) 0 failed_indices st in
  history.

(** The items of one retry round with the [time.sleep(2)] that follows
    every call of [process_request] that returned.  The user's interrupt
    arrives while the main thread sleeps; [naps] counts the sleeps.
    [KeyboardInterrupt] is not an [Exception], so the handler inside the
    round does not catch it: the result is [None] when it ended the
    round. *)
Fixpoint retry_items_napping (naps : nat) (current_failed : list Z) (retry_success : Z)
    (remaining : list Z) (st : Orchestrator)
  : option (Z * list Z) * nat * Orchestrator :=
  match current_failed with
  | [] => (Some (retry_success, remaining), naps, st)
  | idx :: rest =>
      let '(flag, st) := is_set st in
      if flag then (Some (retry_success, remaining), naps, st)
      else
        let '(result, st) := process_request idx st in
        match result with
        | Return ok =>
            if nap env naps then (None, S naps, st)
            else if ok
                 then retry_items_napping (S naps) rest (retry_success + 1) remaining st
                 else retry_items_napping (S naps) rest retry_success (remaining ++ [idx]) st
        | Raise _ => retry_items_napping naps rest retry_success (remaining ++ [idx]) st
        end
  end.

(** The rounds with their sleeps: the one after each item and the
    [time.sleep(3)] before the next round, which is taken when something
    remains and the round was not the last. *)
Fixpoint retry_rounds_napping (rounds : nat) (naps : nat) (retry_success : Z)
    (remaining : list Z) (st : Orchestrator) : option Z * nat * Orchestrator :=
  match rounds with
  | O => (Some retry_success, naps, st)
  | S rounds' =>
      match remaining with
      | [] => (Some retry_success, naps, st)
      | _ :: _ =>
          let '(flag, st) := is_set st in
          if flag then (Some retry_success, naps, st)
          else
            match retry_items_napping naps remaining retry_success [] st with
            | (None, naps, st) => (None, naps, st)
            | (Some (retry_success, remaining), naps, st) =>
                let st := if 0 <? retry_success then save_all st else st in
                match remaining, rounds' with
                | _ :: _, S _ =>
                    if nap env naps then (None, S naps, st)
                    else retry_rounds_napping rounds' (S naps) retry_success remaining st
                | _, _ => retry_rounds_napping rounds' naps retry_success remaining st
                end
            end
      end
  end.

(** [_retry_failed_items(failed_indices, max_retries)] under the user's
    interrupt: [None] when [KeyboardInterrupt] leaves it. *)
Definition _retry_failed_items_napping (failed_indices : list Z) (max_retries : Z)
    (st : Orchestrator) : option Z * Orchestrator :=
  let '(retry_success, _, st) :=
    retry_rounds_napping (Z.to_nat max_retries) 0 0 failed_indices st in
  (retry_success, st).

(** [_print_statistics]: the success rate divides by [total], so with no
    item at all the report stops there with [ZeroDivisionError]. *)
Definition _print_statistics (total initial_success retry_success final_failed : Z)
    (st : Orchestrator) : option Fault * Orchestrator :=
  let total_success := initial_success + retry_success in
  if total =? 0
  then (Some (Failure "ZeroDivisionError"),
        log (PrintedUntilRate total initial_success retry_success final_failed) st)
  else (None,
        log (Printed (mkStatistics total initial_success retry_success total_success
                        final_failed (total_input_tokens st) (total_output_tokens st))) st).

(** The retry of the failed items after the [with] block:
    [if failed_indices and not self._shutdown_event.is_set()].  The result
    is [None] when the user's interrupt ended the rounds. *)
Definition retry_phase (t : Tally) (st : Orchestrator) : option Z * Orchestrator :=
  match failed_indices t with
  | [] => (Some 0, st)
  | _ :: _ =>
      let '(flag, st) := is_set st in
      if flag then (Some 0, st)
      else _retry_failed_items_napping (failed_indices t) DEFAULT_RETRY_ROUNDS st
  end.

(** The part of [run_batch_translation] after the [with] block, inside the
    [try]: the retry rounds, the final save and the statistics.  An
    interrupt during the retry rounds leaves out the rest. *)
Definition finish_run (total_subs : Z) (t : Tally) (st : Orchestrator)
  : option Fault * Orchestrator :=
  match retry_phase t st with
  | (None, st) => (Some KeyboardInterrupt, st)
  | (Some retry_success, st) =>
      let st := save_progress total_subs st in
      let st := save_all st in
      _print_statistics total_subs (success_count t) retry_success
        (Z.of_nat (length (failed_indices t)) - retry_success) st
  end.

(** [run_batch_translation].  The result says how the [try] block ended;
    both handlers and the [finally] clause set the flag.  The pool is made
    inside the [try]: [ThreadPoolExecutor] raises [ValueError] when
    [max_workers] is zero or negative, before anything else is done. *)
Definition run_batch_translation (start_index worker_count batch_size save_interval : option Z)
    (st : Orchestrator) : option Fault * Orchestrator :=
  let start_index := or_default start_index load_progress in
  let worker_count := or_default worker_count (Settings.worker_count settings) in
  let batch_size := or_default batch_size (Settings.batch_size settings) in
  let save_interval := or_default save_interval (Settings.save_interval settings) in
  let total_subs := total_subtitles env in
  let start_index :=
    if (1 <=? start_index) && (start_index <=? total_subs) then start_index else 1 in
  let '(fault, st) :=
    if worker_count <=? 0 then (Some (Failure "ValueError"), st)
    else
      let '(fault, t, pending, st) :=
        batch_loop (Z.to_nat (total_subs - start_index + 1)) 0
          total_subs batch_size save_interval start_index (mkTally 0 0 []) st in
      let st := drain pending st in
      match fault with
      | Some f => (Some f, st)
      | None => finish_run total_subs t st
      end in
  let st :=
    match fault with
    | Some KeyboardInterrupt => set_shutdown st
    | Some (Failure _) => set_shutdown st
    | None => st
    end in
  (fault, set_shutdown st).

(** [manual_retry_failed(max_retries)]: [failed] is what the scan of the
    segment store finds. *)
Definition manual_retry_failed (failed : list Z) (max_retries : Z) (st : Orchestrator)
  : Orchestrator :=
  match failed with
  | [] => st
  | _ :: _ => snd (_retry_failed_items failed max_retries st)
  end.

End Engine.

Arguments is_set : simpl never.
Arguments process_request : simpl never.
Arguments run_worker : simpl never.
Arguments pipeline_handle : simpl never.
Arguments save_progress : simpl never.
Arguments save_all : simpl never.
Arguments periodic_save : simpl never.
Arguments _retry_failed_items : simpl never.
Arguments _print_statistics : simpl never.
Arguments finish_run : simpl never.
Arguments retry_phase : simpl never.
Arguments log : simpl never.
Arguments set_shutdown : simpl never.
Arguments range : simpl never.

(** ** The engine as a machine of atomic actions *)

Section Machine.

Variable env : Environment.
Variable settings : Settings.t.

(** Events that the scheduler emits without any condition on the flag. *)
Definition scheduler_event (e : Event) : Prop :=
  match e with
  | Finished _ _ | SavedAll | Printed _ | PrintedUntilRate _ _ _ _ => True
  | _ => False
  end.

(** The actions from which every function of the orchestrator is made: a
    read of the flag, a worker call, the submission of a batch (only ever
    done right after the flag was read as not set), a checkpoint, another
    event and the setting of the flag.  [submitting] tells whether batches
    may be submitted: only the batch loop does that.  A worker call is one
    action here, as it is for the order of submissions and checkpoints;
    what happens inside it, between the threads, is [pool_step] below. *)
Inductive step (submitting : bool) : Orchestrator → Orchestrator → Prop :=
| step_observe st : step submitting st (snd (is_set env st))
| step_process idx st : step submitting st (snd (process_request env settings idx st))
| step_submit batch st :
    submitting = true → shutdown_event st = false →
    step submitting st (log (Submitted batch) st)
| step_save index st : step submitting st (save_progress settings index st)
| step_emit e st : scheduler_event e → step submitting st (log e st)
| step_set st : step submitting st (set_shutdown st).

End Machine.

(** ** The workers of the pool, interleaved *)




Section Interleaving.

Variable env : Environment.
Variable settings : Settings.t.





End Interleaving.

(** ** The specification's notions, in its own words *)






(** [p] occurs in [s] as a substring. *)
Definition occurs_in (p s : string) : Prop :=
  ∃ before after : string, s = before +:+ p +:+ after.








(** The sums of the token counts that the executor returned, over all
    its calls. *)
Definition sum_input (results : list (bool * Translations * Z * Z)) : Z :=
  foldr (λ r acc, r.1.2 + acc) 0 results.

Definition sum_output (results : list (bool * Translations * Z * Z)) : Z :=
  foldr (λ r acc, r.2 + acc) 0 results.

(** The aggregate counters equal the sums of the per-attempt counts. *)
Definition accounted (st : Orchestrator) : Prop :=
  total_input_tokens st = sum_input (attempts st) ∧
  total_output_tokens st = sum_output (attempts st).

(** The counters did not decrease from [st] to [st']. *)
Definition not_decreased (st st' : Orchestrator) : Prop :=
  total_input_tokens st ≤ total_input_tokens st' ∧
  total_output_tokens st ≤ total_output_tokens st'.




(** The backend reports token counts that are not negative (section 3). *)
Definition nonneg_usage (env : Environment) : Prop :=
  ∀ n ko_text context target_langs response,
    backend env n ko_text context target_langs = Return response →
    0 ≤ (TranslationExecutor.extract_token_usage response).1 ∧
    0 ≤ (TranslationExecutor.extract_token_usage response).2.

(** What the attempts of one request leave behind: the new results of the
    executor, whose token counts are exactly what the request gained. *)
Definition attempts_logged (request request' : Request.t) (st st' : Orchestrator) : Prop :=
  ∃ new,
    attempts st' = new ++ attempts st ∧
    Request.input_tokens request' = Request.input_tokens request + sum_input new ∧
    Request.output_tokens request' = Request.output_tokens request + sum_output new ∧
    0 ≤ sum_input new ∧ 0 ≤ sum_output new ∧
    total_input_tokens st' = total_input_tokens st ∧
    total_output_tokens st' = total_output_tokens st.

(** The events of the persistence stage. *)
Definition persistence_event (e : Event) : Prop :=
  match e with
  | Persisted _ _ | MarkedFailed _ => True
  | _ => False
  end.

(** A round keeps in [round_remaining] and [round_succeeded] only indices it
    started from and, when these are pairwise distinct, no index is in
    both. *)
Definition round_ok (r : Round) : Prop :=
  round_remaining r `sublist_of` round_failed r ∧
  round_succeeded r `sublist_of` round_failed r ∧
  (NoDup (round_failed r) → ∀ idx, idx ∈ round_succeeded r → idx ∉ round_remaining r).

(** Each round of a history starts from what the round before it left. *)
Fixpoint chained (start : list Z) (history : list Round) : Prop :=
  match history with
  | [] => True
  | r :: history' => round_failed r = start ∧ chained (round_remaining r) history'
  end.


(** The events of the workers and of the flag. *)
Definition collect_event (e : Event) : Prop :=
  match e with
  | IsSet _ | Finished _ _ | Persisted _ _ | MarkedFailed _ => True
  | _ => False
  end.




(** The index values of the checkpoints of a history, newest first. *)
Fixpoint checkpoints (tr : list Event) : list Z :=
  match tr with
  | [] => []
  | SavedProgress p :: older => a_index p :: checkpoints older
  | _ :: older => checkpoints older
  end.


(** An event other than the submission of a batch. *)
Definition not_submission (e : Event) : Prop :=
  match e with
  | Submitted _ => False
  | _ => True
  end.


(** The keys of a mapping are among the given language codes. *)
Definition keys_within (tr : Translations) (langs : list string) : Prop :=
  ∀ k, is_Some (tr !! k) → k ∈ langs.

(** ** The choice of the model ([TranslationOrchestrator.__init__]) *)

(** [l[i]] for a Python list: an index below zero counts from the end, and
    an index outside of [-len(l), len(l)) raises [IndexError], which is
    [None] here. *)
Definition getitem {A : Type} (l : list A) (i : Z) : option A :=
  if 0 <=? i then l !! Z.to_nat i
  else if 0 <=? Z.of_nat (length l) + i then l !! Z.to_nat (Z.of_nat (length l) + i)
  else None.

(** The [try] around [MODEL_PRIORITY_LIST[settings.model_priority_index]]
    with its [IndexError] handler, for any list of models: the name that is
    chosen and whether the warning is logged.  [None] stands for the
    [IndexError] of the handler's own [models[0]]. *)
Definition choose_model_from (models : list string) (model_priority_index : Z)
  : option (string * bool) :=
  match getitem models model_priority_index with
  | Some name => Some (name, false)
  | None =>
      match getitem models 0 with
      | Some name => Some (name, true)
      | None => None
      end
  end.

(** The choice that [__init__] makes. *)
Definition choose_model (model_priority_index : Z) : option (string * bool) :=
  choose_model_from AppConstants.MODEL_PRIORITY_LIST model_priority_index.

(** ** The pipeline builder ([builders/pipeline_builder.py]) *)

Module TranslationPipelineBuilder.

(** The handlers that the builder creates, by their class and the argument
    that matters for the chain. *)
Inductive Handler : Type :=
| ValidationHandler
| ExecutionHandler (max_attempts : Z)
| PersistenceHandler
| LoggingHandler.

(** The builder object: its list [_handlers].  Every method returns the
    builder itself. *)
Definition t : Type := list Handler.

(** [__init__] *)
Definition new : t := [].

Definition add_validation (self : t) : t := self ++ [ValidationHandler].

(** [add_execution(executor, max_attempts=3, logger)] *)
Definition add_execution (max_attempts : option Z) (self : t) : t :=
  self ++ [ExecutionHandler (default 3 max_attempts)].

Definition add_persistence (self : t) : t := self ++ [PersistenceHandler].

Definition add_logging (self : t) : t := self ++ [LoggingHandler].

Definition reset (self : t) : t := [].

(** A call [self._handlers[i].set_next(self._handlers[i + 1])]: the index,
    the handler and the one it is given as its next. *)
Definition Link : Type := nat * Handler * Handler.

(** What [build] does: it raises [ValueError], or it would raise
    [IndexError] from one of its subscripts, or it makes calls of [set_next]
    and returns a handler. *)
Inductive Built : Type :=
| ValueError (msg : string)
| IndexError
| Pipeline (first : Handler) (links : list Link).

(** [for i in range(len(self._handlers) - 1)], over the values of [i]. *)
Fixpoint link_loop (handlers : list Handler) (indices : list nat) : option (list Link) :=
  match indices with
  | [] => Some []
  | i :: rest =>
      match handlers !! i, handlers !! S i with
      | Some h, Some next =>
          match link_loop handlers rest with
          | Some links => Some ((i, h, next) :: links)
          | None => None
          end
      | _, _ => None
      end
  end.

(** [build] *)
Definition build (self : t) : Built :=
  match self with
  | [] => ValueError "Pipeline must have at least one handler"
  | _ :: _ =>
      match link_loop self (seq 0 (length self - 1)), self !! 0%nat with
      | Some links, Some first => Pipeline first links
      | _, _ => IndexError
      end
  end.

(** The pipeline that [TranslationOrchestrator.__init__] asks for. *)
Definition of_orchestrator (settings : Settings.t) : Built :=
  build (add_logging (add_persistence
           (add_execution (Some (Settings.max_retries settings)) (add_validation new)))).

End TranslationPipelineBuilder.

(** ** Notions for the rest of the scheduler *)

(** The batches submitted in a history, oldest first. *)
Fixpoint submitted_batches (tr : list Event) : list (list Z) :=
  match tr with
  | [] => []
  | Submitted batch :: older => submitted_batches older ++ [batch]
  | _ :: older => submitted_batches older
  end.

(** The counters agree: every processed item is a success or a failure,
    and no count is negative. *)
Definition tally_consistent (t : Tally) : Prop :=
  processed_count t = success_count t + Z.of_nat (length (failed_indices t)) ∧
  0 ≤ success_count t.

(** A list of integers in strictly descending order. *)
Fixpoint descending (l : list Z) : Prop :=
  match l with
  | [] => True
  | a :: rest => Forall (λ b, b < a) rest ∧ descending rest
  end.

(** A batch as the loop cuts it: not empty and no longer than the batch
    size. *)
Definition batch_within (batch_size : Z) (batch : list Z) : Prop :=
  (0 < length batch)%nat ∧ Z.of_nat (length batch) ≤ batch_size.

(** The index from which [run_batch_translation] starts: its argument, or
    what [load_progress] gives when the argument is [None] or 0, replaced
    by 1 when it is not from 1 to the number of segments. *)
Definition effective_start (env : Environment) (start_index : option Z) : Z :=
  let start_index := or_default start_index load_progress in
  if (1 <=? start_index) && (start_index <=? total_subtitles env) then start_index else 1.

(** The events of the retry rounds: reads of the flag, what the workers'
    persistence stage does, and the save after a round. *)
Definition retry_event (e : Event) : Prop :=
  match e with
  | IsSet _ | Persisted _ _ | MarkedFailed _ | SavedAll => True
  | _ => False
  end.

(** ** Notions for the rest of the executor *)

(** A tool call that the extraction accepts, with what it carries: the
    call has the tool's name and its arguments have ["translations"]. *)
Definition call_offers (call : ToolCall) (tr : Translations) : Prop :=
  call_name call = Some TranslationExecutor.TOOL_NAME ∧
  default ∅ (call_args call) !! "translations" = Some tr.

(** A tool call that the extraction passes over. *)
Definition call_silent (call : ToolCall) : Prop := ∀ tr, ¬ call_offers call tr.

(** A message none of whose tool calls is accepted (a message without
    tool calls among them). *)
Definition message_silent (msg : Message) : Prop :=
  Forall call_silent (default [] (tool_calls msg)).

(** A message without usable usage metadata. *)
Definition no_usage (msg : Message) : Prop := TranslationExecutor.has_usage msg = None.

(** [str.isascii]: every character is below 128. *)
Fixpoint isascii (s : string) : bool :=
  match s with
  | EmptyString => true
  | String c s' => (nat_of_ascii c <? 128)%nat && isascii s'
  end.

(** The message with other text around its own. *)
Definition wrap_content (before after : string) (msg : Message) : Message :=
  mkMessage (before +:+ content msg +:+ after) (tool_calls msg) (usage_metadata msg).

(** ** Sample inputs *)

Module Sample.

(** A tool call that carries the translations [tr]. *)
Definition call_with (tr : Translations) : ToolCall :=
  mkToolCall (Some TranslationExecutor.TOOL_NAME) (Some {[ "translations" := tr ]}).

(** A last message that talks about the tool and calls it as well. *)
Definition chatter_with_call : Message :=
  mkMessage "Let me check: calling tool to invoke the update"
    (Some [call_with {[ "en" := "Hello" ]}]) None.

(** The same text without a tool call. *)
Definition chatter_only : Message :=
  mkMessage "Let me check: calling tool to invoke the update" None None.

(** A response whose tool call answers in the source language only, as the
    system message asks for a "ko" entry. *)
Definition ko_response : Response :=
  mkResponse (Some [mkMessage "" (Some [call_with {[ "ko" := "annyeonghaseyo" ]}]) None]).

Definition ko_agent : TranslationExecutor.Agent := λ _ _ _, Return ko_response.

(** A response with a tool call for "en" that reports 10 input and 5
    output tokens. *)
Definition translated : Response :=
  mkResponse (Some [mkMessage "" (Some [call_with {[ "en" := "Hello" ]}])
                      (Some {[ "input_tokens" := 10; "output_tokens" := 5 ]})]).

(** A response that only talks, and still reports 7 and 3 tokens. *)
Definition refused : Response :=
  mkResponse (Some [mkMessage "That is not appropriate" None
                      (Some {[ "input_tokens" := 7; "output_tokens" := 3 ]})]).

(** One target language, three attempts per item, batches of two, a
    checkpoint every two processed items. *)
Definition settings : Settings.t := Settings.mk ["en"] 2 3 2 2 2 "openai/gpt-oss-20b".

(** The same with a single attempt per item. *)
Definition one_attempt : Settings.t := Settings.mk ["en"] 2 1 2 2 2 "openai/gpt-oss-20b".

(** Two segments and a backend that always translates; nobody interferes. *)
Definition calm : Environment :=
  mkEnvironment (λ _, false) (λ _ _ _ _, Return translated) (λ _ batch, batch)
    (λ _, None) (λ _, false) (λ _, Return "annyeonghaseyo") (λ _ _, Return "") 2.

(** As [calm], but another thread sets the flag just before the fourth
    read of the flag, which is the one of the worker of index 2. *)
Definition stopped : Environment :=
  mkEnvironment (λ n, bool_decide (n = 3%nat)) (λ _ _ _ _, Return translated)
    (λ _ batch, batch) (λ _, None) (λ _, false) (λ _, Return "annyeonghaseyo") (λ _ _, Return "") 2.


(** Three segments; the first call of the backend is refused, the second
    times out, the others translate. *)
Definition flaky : Environment :=
  mkEnvironment (λ _, false)
    (λ n _ _ _, match n with
                | O => Return refused
                | S O => Raise TimeoutError
                | _ => Return translated
                end)
    (λ _ batch, batch) (λ _, None) (λ _, false) (λ _, Return "annyeonghaseyo") (λ _ _, Return "") 3.

(** A backend that never translates: every call times out. *)
Definition dead : Environment :=
  mkEnvironment (λ _, false) (λ _ _ _ _, Raise TimeoutError) (λ _ batch, batch)
    (λ _, None) (λ _, false) (λ _, Return "annyeonghaseyo") (λ _ _, Return "") 3.

End Sample.

(** ** More sample inputs *)

Module Cases.

(** Three messages: one with large counts, one whose metadata has the input
    count only, and a last one without metadata. *)
Definition usage_early : Message :=
  mkMessage "" None (Some {[ "input_tokens" := 100; "output_tokens" := 50 ]}).

Definition usage_partial : Message :=
  mkMessage "" None (Some {[ "input_tokens" := 7 ]}).

Definition usage_absent : Message := mkMessage "done" None (Some ∅).

Definition usage_response : Response :=
  mkResponse (Some [usage_early; usage_partial; usage_absent]).

(** The same words in two spellings. *)
Definition shouted : Message := mkMessage "Bonjour TOUT le Monde" None None.

Definition whispered : Message := mkMessage "bonjour tout LE monde" None None.

(** A segment store without segments. *)
Definition empty : Environment :=
  mkEnvironment (λ _, false) (λ _ _ _ _, Return Sample.translated) (λ _ batch, batch)
    (λ _, None) (λ _, false) (λ _, Return "") (λ _ _, Return "") 0.




(** The same backend, nobody sets the flag and no wait times out, but the
    user interrupts the first sleep of the retry rounds. *)
Definition interrupted_retry : Environment :=
  mkEnvironment (λ _, false) (λ _ _ _ _, Raise TimeoutError) (λ _ batch, batch)
    (λ _, None) (λ n, bool_decide (n = 0%nat))
    (λ _, Return "annyeonghaseyo") (λ _ _, Return "") 3.

(** As [Sample.settings], with a save interval of zero. *)
Definition never_saving : Settings.t := Settings.mk ["en"] 2 3 2 2 0 "openai/gpt-oss-20b".

End Cases.

(** * Properties *)

(** ** Text *)

Lemma append_empty_l (s : string) : "" +:+ s = s.
Proof. reflexivity. Qed.

Lemma append_cons (c : ascii) (s t : string) : String c s +:+ t = String c (s +:+ t).
Proof. reflexivity. Qed.

Lemma append_empty_inv (s t : string) : s +:+ t = "" → s = "" ∧ t = "".
Proof.
  destruct s as [|c s]; [rewrite append_empty_l; auto|].
  rewrite append_cons. discriminate.
Qed.

Lemma startswith_spec (p s : string) :
  Text.startswith p s = true ↔ ∃ after, s = p +:+ after.
Proof.
  revert s. induction p as [|a p IH]; intros s.
  - simpl. split; [intros _; exists s; reflexivity | done].
  - destruct s as [|b s]; simpl.
    + split; [done | intros [after H]; rewrite append_cons in H; discriminate].
    + rewrite andb_true_iff, bool_decide_eq_true, IH. split.
      * intros [-> [after ->]]. exists after. by rewrite append_cons.
      * intros [after H]. rewrite append_cons in H. injection H as -> ->. eauto.
Qed.

Lemma contains_spec (p s : string) : Text.contains p s = true ↔ occurs_in p s.
Proof.
  unfold occurs_in. induction s as [|c s IH].
  - simpl. rewrite orb_false_r, startswith_spec. split.
    + intros [after H]. exists "", after. by rewrite append_empty_l.
    + intros (before & after & H). symmetry in H.
      apply append_empty_inv in H as [-> H].
      apply append_empty_inv in H as [-> ->]. by exists "".
  - cbn [Text.contains]. rewrite orb_true_iff, startswith_spec, IH. split.
    + intros [[after H] | (before & after & H)].
      * exists "", after. by rewrite append_empty_l.
      * exists (String c before), after. rewrite append_cons. by f_equal.
    + intros (before & after & H). destruct before as [|b before].
      * left. exists after. by rewrite append_empty_l in H.
      * right. rewrite append_cons in H. injection H as _ H. eauto.
Qed.








Lemma lower_app (s t : string) : Text.lower (s +:+ t) = Text.lower s +:+ Text.lower t.
Proof.
  induction s as [|c s IH]; [done|]. rewrite append_cons. simpl.
  by rewrite IH, append_cons.
Qed.













Example strip_inner_space_kept : Text.strip "  let  me check  " = "let  me check".
Proof. reflexivity. Qed.

Example strip_tab_newline :
  Text.strip (String "009" ("ok" +:+ String "010" "")) = "ok".
Proof. reflexivity. Qed.

Example lower_mixed_case : Text.lower "Let Me CHECK, 123!" = "let me check, 123!".
Proof. reflexivity. Qed.

Example contains_inside : Text.contains "tool call" "a tool call was made" = true.
Proof. reflexivity. Qed.


(** ** The executor *)



(** C9: a response whose last message carries a non-empty [tool_calls] is
    valid whatever its text is: the length check and the two phrase filters
    are not reached, so a text with a rejection or tool-chatter phrase does
    not make it invalid. *)
Theorem tool_calls_decide_validity (response : Response) (msgs : list Message)
    (last_message : Message) (call : ToolCall) (calls : list ToolCall) :
  messages response = Some msgs →
  last msgs = Some last_message →
  tool_calls last_message = Some (call :: calls) →
  TranslationExecutor.is_valid_response response = true.
Proof.
  intros Hmsgs Hlast Hcalls. unfold TranslationExecutor.is_valid_response.
  rewrite Hmsgs, Hlast. unfold has_tool_calls. by rewrite Hcalls.
Qed.

Lemma tool_calls_decide_validity_witness :
  TranslationExecutor.any_pattern AppConstants.TOOL_PATTERNS
    (Text.lower (content Sample.chatter_with_call)) = true ∧
  TranslationExecutor.is_valid_response (mkResponse (Some [Sample.chatter_with_call])) = true.
Proof.
  split; [reflexivity|].
  apply (tool_calls_decide_validity _ [Sample.chatter_with_call] Sample.chatter_with_call
           (Sample.call_with {[ "en" := "Hello" ]}) []); reflexivity.
Defined.

(** Without the tool call the same text is rejected. *)
Example chatter_only_invalid :
  TranslationExecutor.is_valid_response (mkResponse (Some [Sample.chatter_only])) = false.
Proof. reflexivity. Qed.

Lemma falsy_false (translations : option Translations) :
  TranslationExecutor.falsy translations = false ↔
  ∃ tr, translations = Some tr ∧ tr ≠ ∅.
Proof.
  destruct translations as [tr|]; simpl.
  - rewrite bool_decide_eq_false. split; [eauto | by intros (? & [= <-] & ?)].
  - split; [done | by intros (? & ? & _)].
Qed.

(** What [execute_async] returns, case by case. *)
Lemma execute_async_cases (agent : TranslationExecutor.Agent) (ko_text context : string)
    (target_langs : list string) :
  match agent ko_text context target_langs with
  | Raise _ =>
      TranslationExecutor.execute_async agent ko_text context target_langs
      = Return (false, ∅, 0, 0)
  | Return response =>
      let '(input_t, output_t) := TranslationExecutor.extract_token_usage response in
      if TranslationExecutor.is_valid_response response
           && negb (TranslationExecutor.falsy (TranslationExecutor.extract_translations response))
      then TranslationExecutor.execute_async agent ko_text context target_langs
           = Return (true, default ∅ (TranslationExecutor.extract_translations response),
                     input_t, output_t)
      else TranslationExecutor.execute_async agent ko_text context target_langs
           = Return (false, ∅, input_t, output_t)
  end.
Proof.
  unfold TranslationExecutor.execute_async, TranslationExecutor.execute_body.
  destruct (agent ko_text context target_langs) as [response|[|msg]]; try reflexivity.
  destruct (TranslationExecutor.extract_token_usage response) as [input_t output_t].
  destruct (TranslationExecutor.is_valid_response response); simpl; [|reflexivity].
  destruct (TranslationExecutor.falsy _); reflexivity.
Qed.

(** C3, as the code has it: an execution that returns success has a
    non-empty mapping, which is the one the first call of the tool carries
    in a valid response, whatever its keys; and a valid response from which
    nothing is extracted gives success = false. *)
Theorem execute_success_is_extracted (agent : TranslationExecutor.Agent)
    (ko_text context : string) (target_langs : list string)
    (ok : bool) (tr : Translations) (input_t output_t : Z) :
  TranslationExecutor.execute_async agent ko_text context target_langs
    = Return (ok, tr, input_t, output_t) →
  (ok = true →
     tr ≠ ∅ ∧
     ∃ response, agent ko_text context target_langs = Return response ∧
       TranslationExecutor.is_valid_response response = true ∧
       TranslationExecutor.extract_translations response = Some tr) ∧
  (∀ response, agent ko_text context target_langs = Return response →
     TranslationExecutor.is_valid_response response = true →
     TranslationExecutor.falsy (TranslationExecutor.extract_translations response) = true →
     ok = false).
Proof.
  intros Hexec. pose proof (execute_async_cases agent ko_text context target_langs) as Hcases.
  destruct (agent ko_text context target_langs) as [response|e].
  - destruct (TranslationExecutor.extract_token_usage response) as [i o].
    destruct (TranslationExecutor.is_valid_response response) eqn:Hvalid; simpl in Hcases.
    + destruct (TranslationExecutor.falsy _) eqn:Hfalsy; simpl in Hcases;
        rewrite Hcases in Hexec; injection Hexec as <- <- <- <-.
      * split; [done | auto].
      * apply falsy_false in Hfalsy as (tr & Htr & Hne). rewrite Htr. simpl. split.
        -- intros _. split; [done|]. exists response. by rewrite Htr.
        -- intros r [= <-] _ Hf. rewrite Htr in Hf. simpl in Hf.
           apply bool_decide_eq_true in Hf. done.
    + rewrite Hcases in Hexec. injection Hexec as <- <- <- <-. split; [done|].
      intros r [= <-]. congruence.
  - rewrite Hcases in Hexec. injection Hexec as <- <- <- <-. split; [done | done].
Qed.

Lemma execute_success_is_extracted_witness :
  ({[ "ko" := "annyeonghaseyo" ]} : Translations) ≠ ∅ ∧
  ∃ response, Sample.ko_agent "annyeonghaseyo" "" ["en"] = Return response ∧
    TranslationExecutor.is_valid_response response = true ∧
    TranslationExecutor.extract_translations response = Some {[ "ko" := "annyeonghaseyo" ]}.
Proof.
  apply (execute_success_is_extracted Sample.ko_agent "annyeonghaseyo" "" ["en"]
           true {[ "ko" := "annyeonghaseyo" ]} 0 0); reflexivity.
Defined.

(** C3, as stated, fails: the execution below succeeds for the target
    language "en" with a mapping whose only key is "ko". *)
Lemma success_keys_outside_target_langs :
  TranslationExecutor.execute_async Sample.ko_agent "annyeonghaseyo" "" ["en"]
    = Return (true, {[ "ko" := "annyeonghaseyo" ]}, 0, 0) ∧
  ¬ keys_within {[ "ko" := "annyeonghaseyo" ]} ["en"].
Proof.
  split; [reflexivity|]. intros Hkeys.
  specialize (Hkeys "ko"). rewrite lookup_singleton_eq in Hkeys.
  assert (Hin : "ko" ∈ ["en"]) by (apply Hkeys; eauto).
  apply list_elem_of_singleton in Hin. discriminate.
Qed.

(** ** Every function of the orchestrator is a sequence of atomic actions *)

Section Refinement.

Variable env : Environment.
Variable settings : Settings.t.
Variable submitting : bool.

Local Abbreviation steps := (rtc (step env settings submitting)).

Lemma is_set_steps (st : Orchestrator) : steps st (is_set env st).2.
Proof. apply rtc_once, step_observe. Qed.

Lemma is_set_flag (st : Orchestrator) :
  shutdown_event (is_set env st).2 = (is_set env st).1.
Proof. reflexivity. Qed.

Lemma process_request_steps (idx : Z) (st : Orchestrator) :
  steps st (process_request env settings idx st).2.
Proof. apply rtc_once, step_process. Qed.




Lemma save_all_steps (st : Orchestrator) : steps st (save_all st).
Proof. apply rtc_once. by apply step_emit. Qed.



Lemma retry_items_steps (current_failed : list Z) (retry_success : Z)
    (succeeded remaining : list Z) (st : Orchestrator) :
  steps st (retry_items env settings current_failed retry_success succeeded remaining st).2.
Proof.
  revert retry_success succeeded remaining st.
  induction current_failed as [|idx rest IH]; intros retry_success succeeded remaining st;
    cbn; [done|].
  pose proof (is_set_steps st) as Ho.
  destruct (is_set env st) as [flag st1]. cbn in Ho.
  destruct flag; cbn; [done|].
  pose proof (process_request_steps idx st1) as Hp.
  destruct (process_request env settings idx st1) as [result st2]. cbn in Hp.
  destruct result as [[|]|e]; (etrans; [exact Ho|]; etrans; [exact Hp|]; apply IH).
Qed.

Lemma retry_rounds_steps (rounds : nat) (retry_success : Z) (remaining : list Z)
    (st : Orchestrator) :
  steps st (retry_rounds env settings rounds retry_success remaining st).2.
Proof.
  revert retry_success remaining st.
  induction rounds as [|rounds IH]; intros retry_success remaining st;
    cbn [retry_rounds snd]; [done|].
  destruct remaining as [|idx rest]; cbn [snd]; [done|].
  pose proof (is_set_steps st) as Ho.
  destruct (is_set env st) as [flag st1]. cbn [snd] in Ho.
  destruct flag; cbn [snd]; [done|].
  pose proof (retry_items_steps (idx :: rest) retry_success [] [] st1) as Hi.
  destruct (retry_items _ _ _ _ _ _ _) as [[[rs succeeded] remaining'] st2]. cbn [snd] in Hi.
  set (st3 := if 0 <? rs then save_all st2 else st2).
  assert (Hs : steps st2 st3).
  { subst st3. case_match; [apply save_all_steps | done]. }
  specialize (IH rs remaining' st3).
  destruct (retry_rounds _ _ _ _ _ _) as [[[rs' remaining''] history] st4]. cbn [snd] in *.
  etrans; [exact Ho|]. etrans; [exact Hi|]. by etrans.
Qed.

Lemma retry_failed_items_steps (failed : list Z) (max_retries : Z) (st : Orchestrator) :
  steps st (_retry_failed_items env settings failed max_retries st).2.
Proof.
  unfold _retry_failed_items.
  pose proof (retry_rounds_steps (Z.to_nat max_retries) 0 failed st) as H.
  by destruct (retry_rounds _ _ _ _ _ _) as [[[rs remaining] history] st1].
Qed.








End Refinement.

Section RefinementOfRun.

Variable env : Environment.
Variable settings : Settings.t.

Local Abbreviation steps := (rtc (step env settings true)).



End RefinementOfRun.

(** ** The batch loop ends by itself *)

Lemma range_nonempty (lo hi first : Z) (others : list Z) :
  range lo hi = first :: others → lo < hi.
Proof.
  unfold range. destruct (decide (0 < hi - lo)) as [Hpos | Hneg]; [lia|].
  rewrite seqZ_nil by lia. done.
Qed.

(** The fuel that [run_batch_translation] gives to the loop is enough: with
    at least [total_subs - current_index + 1] of it the result does not
    depend on the fuel, so the loop is never cut short. *)
Lemma batch_loop_fuel (env : Environment) (settings : Settings.t) (fuel fuel' batch_no : nat)
    (total_subs size interval current : Z) (t : Tally) (st : Orchestrator) :
  (Z.to_nat (total_subs - current + 1) ≤ fuel)%nat →
  (Z.to_nat (total_subs - current + 1) ≤ fuel')%nat →
  batch_loop env settings fuel batch_no total_subs size interval current t st
  = batch_loop env settings fuel' batch_no total_subs size interval current t st.
Proof.
  revert fuel' batch_no current t st.
  induction fuel as [|fuel IH]; intros fuel' batch_no current t st Hfuel Hfuel'.
  - destruct fuel' as [|fuel']; [done|]. cbn [batch_loop].
    destruct (Z.leb_spec current total_subs); [lia | done].
  - destruct fuel' as [|fuel'].
    { cbn [batch_loop]. destruct (Z.leb_spec current total_subs); [lia | done]. }
    cbn [batch_loop]. destruct (Z.leb_spec current total_subs) as [Hle | Hgt]; [|done].
    destruct (is_set env st) as [flag st1]. destruct flag; [done|].
    destruct (range _ _) as [|first others] eqn:Hbatch; [done|].
    apply range_nonempty in Hbatch.
    destruct (interrupt env batch_no); [done|].
    destruct (collect _ _ _ _ _) as [[t1 pending] st2].
    destruct (interval =? 0); [done|].
    rewrite (IH fuel'); [done | lia..].
Qed.

(** ** Token accounting *)

Lemma sum_input_app (l k : list (bool * Translations * Z * Z)) :
  sum_input (l ++ k) = sum_input l + sum_input k.
Proof. induction l as [|r l IH]; simpl; [done | rewrite IH; lia]. Qed.

Lemma sum_output_app (l k : list (bool * Translations * Z * Z)) :
  sum_output (l ++ k) = sum_output l + sum_output k.
Proof. induction l as [|r l IH]; simpl; [done | rewrite IH; lia]. Qed.

Section Accounting.

Variable env : Environment.
Variable settings : Settings.t.
Hypothesis usage : nonneg_usage env.

(** The executor returns the token counts of the response, or zeros. *)
Lemma execute_sync_tokens (n : nat) (ko_text context : string) (target_langs : list string) :
  let r := TranslationExecutor.execute_sync (backend env n) ko_text context target_langs in
  0 ≤ r.1.2 ∧ 0 ≤ r.2.
Proof.
  unfold TranslationExecutor.execute_sync.
  pose proof (execute_async_cases (backend env n) ko_text context target_langs) as Hcases.
  destruct (backend env n ko_text context target_langs) as [response|e] eqn:Hreply.
  - apply usage in Hreply.
    destruct (TranslationExecutor.extract_token_usage response) as [i o].
    destruct (_ && _); rewrite Hcases; exact Hreply.
  - rewrite Hcases. simpl. lia.
Qed.

Lemma attempt_loop_logged (budget : nat) (request : Request.t) (st : Orchestrator) :
  attempts_logged request (attempt_loop env budget request st).1
    st (attempt_loop env budget request st).2.
Proof.
  revert request st. induction budget as [|budget IH]; intros request st.
  { exists []. simpl. repeat split; lia. }
  cbn [attempt_loop].
  set (r1 := Request.increment_attempt request).
  pose proof (execute_sync_tokens (length (attempts st)) (Request.ko_text r1)
                (Request.context r1) (Request.target_langs r1)) as Hnonneg.
  cbv zeta in Hnonneg.
  destruct (TranslationExecutor.execute_sync _ _ _ _) as [[[ok tr] i] o] eqn:Hres.
  simpl in Hnonneg. destruct ok.
  - exists [(true, tr, i, o)]. simpl. repeat split; lia.
  - set (r2 := Request.mark_failure _ _).
    destruct (IH r2 (record_attempt (false, tr, i, o) st))
      as (new & Hatt & Hin & Hout & Hi & Ho & Hti & Hto).
    exists (new ++ [(false, tr, i, o)]).
    rewrite sum_input_app, sum_output_app, <- app_assoc. simpl in *.
    repeat split; try lia. exact Hatt.
Qed.

Lemma pipeline_handle_logged (request : Request.t) (st : Orchestrator) :
  attempts_logged request (pipeline_handle env settings request st).1
    st (pipeline_handle env settings request st).2.
Proof.
  unfold pipeline_handle, validation_handle, execution_handle, logging_handle.
  destruct (Request.is_valid request).
  - pose proof (attempt_loop_logged (Z.to_nat (Settings.max_retries settings)) request st) as H.
    destruct (attempt_loop _ _ _ _) as [request' st']. simpl in *.
    destruct H as (new & H). exists new. unfold persistence_handle.
    by destruct (Request.success request').
  - exists []. simpl. repeat split; lia.
Qed.

(** One call of [process_request] keeps the counters equal to the sums and
    does not decrease them. *)
Lemma process_request_tokens (idx : Z) (st : Orchestrator) :
  (accounted st → accounted (process_request env settings idx st).2) ∧
  not_decreased st (process_request env settings idx st).2.
Proof.
  unfold process_request, is_set.
  destruct (shutdown_event st || signal env (observed st)).
  { unfold accounted, not_decreased. simpl. split; [done | lia]. }
  set (st1 := mkOrchestrator _ _ _ _ _ _).
  destruct (get_text env idx) as [ko_text|e].
  2:{ unfold accounted, not_decreased. simpl. split; [done | lia]. }
  destruct (get_context env idx (Settings.context_size settings)) as [context|e].
  2:{ unfold accounted, not_decreased. simpl. split; [done | lia]. }
  set (request := Request.new _ _ _ _).
  pose proof (pipeline_handle_logged request st1) as H.
  destruct (pipeline_handle env settings request st1) as [result st2]. simpl in H.
  destruct H as (new & Hatt & Hin & Hout & Hi & Ho & Hti & Hto).
  subst request st1. simpl in *.
  unfold accounted, not_decreased.
  destruct (0 <? Request.input_tokens result) eqn:Ei;
    destruct (0 <? Request.output_tokens result) eqn:Eo; simpl;
    rewrite ?Hatt, ?sum_input_app, ?sum_output_app; lia.
Qed.

(** Every atomic action keeps the counters equal to the sums and does not
    decrease them. *)
Lemma step_tokens (submitting : bool) (st st' : Orchestrator) :
  step env settings submitting st st' →
  (accounted st → accounted st') ∧ not_decreased st st'.
Proof.
  destruct 1; try apply process_request_tokens;
    unfold accounted, not_decreased; simpl; (split; [done | lia]).
Qed.

Lemma steps_tokens (submitting : bool) (st st' : Orchestrator) :
  rtc (step env settings submitting) st st' →
  (accounted st → accounted st') ∧ not_decreased st st'.
Proof.
  induction 1 as [st | st st1 st2 Hstep _ [IHacc IHle]].
  - unfold not_decreased. split; [done | lia].
  - apply step_tokens in Hstep as [Hacc Hle]. unfold not_decreased in *.
    split; [auto | lia].
Qed.








End Accounting.

(** ** The calls of the code are interleavings of the pool *)

Section Schedules.

Variable env : Environment.
Variable settings : Settings.t.





End Schedules.

(** The sample backends report token counts that are not negative. *)
Lemma calm_usage : nonneg_usage Sample.calm.
Proof. intros n a b c response [= <-]. by vm_compute. Qed.





(** The refused answer and the timeout of the first item are counted: 7 + 0
    and then three times 10 input tokens, 3 + 0 and three times 5 output
    tokens, over five calls of the executor. *)
Example flaky_totals :
  let st_end :=
    (run_batch_translation Sample.flaky Sample.settings None None None None initial).2 in
  total_input_tokens st_end = 37 ∧ total_output_tokens st_end = 18 ∧
  length (attempts st_end) = 5%nat.
Proof. by vm_compute. Qed.

(** ** What a worker leaves in the state *)

Section Worker.

Variable env : Environment.
Variable settings : Settings.t.

(** The attempts touch nothing but the log of the executor's results. *)
Lemma attempt_loop_frame (budget : nat) (request : Request.t) (st : Orchestrator) :
  let st' := (attempt_loop env budget request st).2 in
  shutdown_event st' = shutdown_event st ∧ observed st' = observed st ∧
  trace st' = trace st.
Proof.
  revert request st. induction budget as [|budget IH]; intros request st; [done|].
  cbn [attempt_loop].
  destruct (TranslationExecutor.execute_sync _ _ _ _) as [[[ok tr] i] o].
  destruct ok; [done|]. exact (IH _ _).
Qed.

Lemma pipeline_handle_frame (request : Request.t) (st : Orchestrator) :
  let st' := (pipeline_handle env settings request st).2 in
  shutdown_event st' = shutdown_event st ∧ observed st' = observed st ∧
  ∃ ext, trace st' = ext ++ trace st ∧ Forall persistence_event ext.
Proof.
  unfold pipeline_handle, validation_handle, execution_handle, persistence_handle.
  destruct (Request.is_valid request); [|by repeat split; exists []].
  pose proof (attempt_loop_frame (Z.to_nat (Settings.max_retries settings)) request st) as H.
  destruct (attempt_loop _ _ _ _) as [request' st1]. simpl in *.
  destruct H as (Hflag & Hobs & Htrace).
  destruct (Request.success request'); unfold log; simpl; rewrite Htrace;
    (repeat split; [done..|]); eexists [_]; (split; [done|]); by repeat constructor.
Qed.

Lemma process_request_frame (idx : Z) (st : Orchestrator) :
  let st' := (process_request env settings idx st).2 in
  shutdown_event st' = (is_set env st).1 ∧
  observed st' = S (observed st) ∧
  ∃ ext, trace st' = ext ++ IsSet (is_set env st).1 :: trace st ∧
         Forall persistence_event ext.
Proof.
  unfold process_request, is_set. cbn [fst].
  destruct (shutdown_event st || signal env (observed st)) eqn:Hflag.
  { simpl. repeat split. by exists []. }
  set (st1 := mkOrchestrator _ _ _ _ _ _).
  destruct (get_text env idx) as [ko_text|e]; [|simpl; repeat split; by exists []].
  destruct (get_context env idx (Settings.context_size settings)) as [context|e];
    [|simpl; repeat split; by exists []].
  pose proof (pipeline_handle_frame
                (Request.new idx ko_text context (Settings.lang_codes_list settings)) st1)
    as H.
  destruct (pipeline_handle _ _ _ _) as [result st2]. simpl in H.
  destruct H as (Hf & Ho & ext & Ht & Hext).
  assert (Hadd : ∀ a b, shutdown_event (add_totals a b st2) = false ∧
                        observed (add_totals a b st2) = S (observed st) ∧
                        trace (add_totals a b st2) = ext ++ IsSet false :: trace st).
  { intros a b. simpl. auto. }
  destruct ((0 <? _) || _); cbn [snd].
  - destruct (Hadd (Request.input_tokens result) (Request.output_tokens result))
      as (Hf' & Ho' & Ht').
    repeat split; [exact Hf' | exact Ho' |]. exists ext. by split.
  - repeat split; [exact Hf | exact Ho |]. exists ext. by split.
Qed.

(** A worker that finds the flag set returns [False] at once: the state
    only records the read of the flag. *)
Lemma process_request_shutdown (idx : Z) (st : Orchestrator) :
  (is_set env st).1 = true →
  process_request env settings idx st = (Return false, (is_set env st).2).
Proof.
  unfold process_request. destruct (is_set env st) as [flag st1]. simpl. by intros ->.
Qed.


End Worker.

(** ** Collecting the results of a batch *)

Ltac same_history :=
  cbn [app]; rewrite <- ?app_assoc; cbn [app]; rewrite <- ?app_assoc; reflexivity.

Lemma record_result_failed (idx : Z) (result : Outcome bool) (t : Tally) :
  result ≠ Return true →
  failed_indices (record_result idx result t) = failed_indices t ++ [idx].
Proof. by destruct result as [[|]|[|msg]]. Qed.

Lemma record_result_processed (idx : Z) (result : Outcome bool) (t : Tally) :
  processed_count (record_result idx result t) = processed_count t + 1.
Proof. by destruct result as [[|]|[|msg]]. Qed.

Lemma record_result_keeps (idx i : Z) (result : Outcome bool) (t : Tally) :
  i ∈ failed_indices t → i ∈ failed_indices (record_result idx result t).
Proof.
  destruct result as [[|]|[|msg]]; simpl; try done; rewrite elem_of_app; auto.
Qed.

Lemma is_set_trace (env : Environment) (st : Orchestrator) :
  trace (is_set env st).2 = IsSet (is_set env st).1 :: trace st.
Proof. reflexivity. Qed.

Section Collection.

Variable env : Environment.
Variable settings : Settings.t.


End Collection.




(** ** Validation *)

Lemma invalid_request_not_valid (idx : Z) (ko_text context : string)
    (target_langs : list string) :
  Text.strip ko_text = "" ∨ target_langs = [] →
  Request.is_valid (Request.new idx ko_text context target_langs) = false.
Proof.
  unfold Request.is_valid. simpl.
  intros [-> | ->]; [done | by rewrite andb_false_r].
Qed.

(** The chain on an invalid request: the request marked failed, the state
    untouched. *)
Lemma pipeline_handle_invalid (env : Environment) (settings : Settings.t)
    (request : Request.t) (st : Orchestrator) :
  Request.is_valid request = false →
  pipeline_handle env settings request st
  = (Request.mark_failure "Invalid request: empty text or no target languages" request, st).
Proof.
  intros Hinvalid. unfold pipeline_handle, validation_handle. by rewrite Hinvalid.
Qed.

(** C8: a request whose source text is empty or white space only, or that
    has no target language, is marked failed with an error by the
    validation stage; the chain stops there, so the executor is not called
    and nothing else changes, and the request still has no attempt. *)
Theorem invalid_request_stops_chain (env : Environment) (settings : Settings.t)
    (idx : Z) (ko_text context : string) (target_langs : list string) (st : Orchestrator) :
  Text.strip ko_text = "" ∨ target_langs = [] →
  let request := Request.new idx ko_text context target_langs in
  let '(result, st') := pipeline_handle env settings request st in
  validation_handle request = (false, result) ∧
  Request.success result = false ∧
  is_Some (Request.error result) ∧
  Request.attempt_count result = 0 ∧
  attempts st' = attempts st ∧
  st' = st.
Proof.
  intros Hbad request.
  pose proof (invalid_request_not_valid idx ko_text context target_langs Hbad) as Hinvalid.
  fold request in Hinvalid.
  rewrite (pipeline_handle_invalid env settings request st Hinvalid).
  unfold validation_handle. rewrite Hinvalid.
  split; [done|]. split; [done|]. split; [by eexists|]. by repeat split.
Qed.

Lemma invalid_request_stops_chain_witness :
  let '(result, st') :=
    pipeline_handle Sample.calm Sample.settings (Request.new 1 "   " "" ["en"]) initial in
  Request.success result = false ∧ Request.attempt_count result = 0 ∧ st' = initial.
Proof.
  pose proof (invalid_request_stops_chain Sample.calm Sample.settings 1 "   " "" ["en"] initial)
    as H.
  cbv zeta in H.
  destruct (pipeline_handle Sample.calm Sample.settings (Request.new 1 "   " "" ["en"]) initial)
    as [result st'].
  destruct H as (_ & Hfail & _ & Hcount & _ & Hsame); [by left|].
  by repeat split.
Defined.

(** The same at the level of the worker: with an unusable segment text or
    no configured language, [process_request] returns [False] and the
    executor has not been called. *)
Lemma process_request_invalid (env : Environment) (settings : Settings.t)
    (idx : Z) (ko_text context : string) (st : Orchestrator) :
  get_text env idx = Return ko_text →
  get_context env idx (Settings.context_size settings) = Return context →
  Text.strip ko_text = "" ∨ Settings.lang_codes_list settings = [] →
  (process_request env settings idx st).1 = Return false ∧
  attempts (process_request env settings idx st).2 = attempts st.
Proof.
  intros Htext Hcontext Hbad. unfold process_request.
  destruct (is_set env st) as [flag st1] eqn:Hobs.
  assert (Hatt : attempts st1 = attempts st).
  { unfold is_set in Hobs. by injection Hobs as _ <-. }
  destruct flag; [done|]. rewrite Htext, Hcontext.
  rewrite pipeline_handle_invalid by (by apply invalid_request_not_valid).
  done.
Qed.

(** ** Shutdown seen by a worker *)

(** C10, as the code has it: a worker that finds the flag set when it
    enters [process_request] returns [False] and does nothing else (the
    state only records its read of the flag: no text is read, no request
    built, no executor call made); the scheduler then finds the flag set
    before it looks at the future and leaves the collection loop, so the
    counters are unchanged: the index is not appended to the failed list and
    the other futures stay uncollected. *)
Theorem shutdown_before_start_not_recorded (env : Environment) (settings : Settings.t)
    (idx : Z) (rest : list Z) (t : Tally) (st : Orchestrator) :
  (is_set env st).1 = true →
  process_request env settings idx st = (Return false, (is_set env st).2) ∧
  attempts (is_set env st).2 = attempts st ∧
  ∃ st', collect env settings (idx :: rest) t st = (t, rest, st').
Proof.
  intros Hset. split; [by apply process_request_shutdown|]. split; [done|].
  cbn [collect]. unfold run_worker.
  rewrite (process_request_shutdown env settings idx st Hset).
  pose proof (is_set_flag env st) as Hflag. rewrite Hset in Hflag.
  pose proof (is_set_flag env (log (Finished idx (Return false)) (is_set env st).2)) as Hflag'.
  destruct (is_set env (log (Finished idx (Return false)) (is_set env st).2))
    as [flag st'] eqn:Hobs.
  assert (flag = true) as ->.
  { unfold is_set in Hobs at 1. injection Hobs as <- _.
    change ((is_set env st).1 || signal env (S (observed st)) = true).
    by rewrite Hset. }
  by exists st'.
Qed.

Lemma shutdown_before_start_not_recorded_witness :
  ∃ st', collect Sample.calm Sample.settings [2; 3] (mkTally 1 1 []) (set_shutdown initial)
         = (mkTally 1 1 [], [3], st').
Proof.
  apply (shutdown_before_start_not_recorded Sample.calm Sample.settings 2 [3]
           (mkTally 1 1 []) (set_shutdown initial)).
  reflexivity.
Defined.

(** C10, as stated, fails: in the run below the flag is set just before the
    worker of index 2 starts; the worker returns [False], the scheduler
    breaks out of the collection, and index 2 is in no failed list: the
    statistics report one success and no failure out of two items. *)
Lemma unstarted_item_not_in_failed_list :
  let '(fault, t, pending, st) :=
    batch_loop Sample.stopped Sample.settings 2 0 2 2 2 1 (mkTally 0 0 []) initial in
  trace st = [ IsSet true; Finished 2 (Return false); IsSet true;
               IsSet false; Finished 1 (Return true); Persisted 1 {[ "en" := "Hello" ]};
               IsSet false; Submitted [1; 2]; IsSet false ] ∧
  (2 ∉ failed_indices t) ∧
  ∃ rest, trace (run_batch_translation Sample.stopped Sample.settings None None None None
                   initial).2
          = Printed (mkStatistics 2 1 0 1 0 10 5) :: rest.
Proof.
  vm_compute. split; [reflexivity|]. split; [|by eexists].
  intros Hin. by apply elem_of_nil in Hin.
Qed.

(** ** Retry rounds *)

Section Retry.

Variable env : Environment.
Variable settings : Settings.t.

(** What one round adds to its two lists. *)
Lemma retry_items_split (current_failed : list Z) (retry_success : Z)
    (succeeded remaining : list Z) (st : Orchestrator) :
  let '(_, succeeded', remaining', _) :=
    retry_items env settings current_failed retry_success succeeded remaining st in
  ∃ s r, succeeded' = succeeded ++ s ∧ remaining' = remaining ++ r ∧
    s `sublist_of` current_failed ∧ r `sublist_of` current_failed ∧
    (NoDup current_failed → ∀ idx, idx ∈ s → idx ∉ r).
Proof.
  revert retry_success succeeded remaining st.
  induction current_failed as [|idx rest IH]; intros retry_success succeeded remaining st.
  { exists [], []. rewrite !app_nil_r. repeat split; try done.
    intros _ i Hi. by apply elem_of_nil in Hi. }
  cbn [retry_items].
  destruct (is_set env st) as [flag st1]. destruct flag.
  { exists [], []. rewrite !app_nil_r. repeat split; try apply sublist_nil_l.
    intros _ i Hi. by apply elem_of_nil in Hi. }
  destruct (process_request env settings idx st1) as [result st2].
  assert (Hfail : ∀ rs,
    let '(_, succeeded', remaining', _) :=
      retry_items env settings rest rs succeeded (remaining ++ [idx]) st2 in
    ∃ s r, succeeded' = succeeded ++ s ∧ remaining' = remaining ++ r ∧
      s `sublist_of` idx :: rest ∧ r `sublist_of` idx :: rest ∧
      (NoDup (idx :: rest) → ∀ i, i ∈ s → i ∉ r)).
  { intros rs. specialize (IH rs succeeded (remaining ++ [idx]) st2).
    destruct (retry_items env settings rest rs succeeded (remaining ++ [idx]) st2)
      as [[[rs' succeeded'] remaining'] st3].
    destruct IH as (s & r & -> & -> & Hs & Hr & Hdisj).
    exists s, (idx :: r). rewrite <- app_assoc. repeat split; try done.
    - by apply sublist_cons.
    - by apply sublist_skip.
    - intros Hnodup i Hi. apply NoDup_cons in Hnodup as [Hfresh Hnodup].
      rewrite not_elem_of_cons. split; [|by apply Hdisj].
      intros ->. apply Hfresh. by eapply elem_of_sublist. }
  destruct result as [[|]|e]; [|apply Hfail..].
  specialize (IH (retry_success + 1) (succeeded ++ [idx]) remaining st2).
  destruct (retry_items env settings rest (retry_success + 1) (succeeded ++ [idx]) remaining st2)
    as [[[rs' succeeded'] remaining'] st3].
  destruct IH as (s & r & -> & -> & Hs & Hr & Hdisj).
  exists (idx :: s), r. rewrite <- app_assoc. repeat split; try done.
  - by apply sublist_skip.
  - by apply sublist_cons.
  - intros Hnodup i Hi. apply NoDup_cons in Hnodup as [Hfresh Hnodup].
    apply elem_of_cons in Hi as [-> | Hi]; [|by apply Hdisj].
    intros Hin. apply Hfresh. by eapply elem_of_sublist.
Qed.

(** The history of the rounds: no more rounds than the budget, each round
    starting from what the one before left, each round well formed. *)
Lemma retry_rounds_history (rounds : nat) (retry_success : Z) (remaining : list Z)
    (st : Orchestrator) :
  let history := (retry_rounds env settings rounds retry_success remaining st).1.2 in
  (length history ≤ rounds)%nat ∧ chained remaining history ∧ Forall round_ok history.
Proof.
  revert retry_success remaining st.
  induction rounds as [|rounds IH]; intros retry_success remaining st.
  { simpl. repeat split; [lia | constructor]. }
  cbn [retry_rounds].
  destruct remaining as [|idx rest]; [simpl; repeat split; [lia | constructor]|].
  destruct (is_set env st) as [flag st1].
  destruct flag; [simpl; repeat split; [lia | constructor]|].
  pose proof (retry_items_split (idx :: rest) retry_success [] [] st1) as Hsplit.
  destruct (retry_items env settings (idx :: rest) retry_success [] [] st1)
    as [[[rs succeeded] remaining'] st2].
  destruct Hsplit as (s & r & -> & -> & Hs & Hr & Hdisj).
  specialize (IH rs ([] ++ r) (if 0 <? rs then save_all st2 else st2)).
  destruct (retry_rounds env settings rounds rs ([] ++ r) _)
    as [[[rs' remaining''] history] st3].
  cbn [fst snd] in *. destruct IH as (Hlen & Hchain & Hok).
  repeat split; [simpl; lia | exact Hchain |].
  constructor; [|exact Hok]. by repeat split.
Qed.

End Retry.

(** The rounds of a chained, well-formed history only ever lose indices. *)
Lemma chained_within (start : list Z) (history : list Round) (j : nat) (r : Round) :
  chained start history → Forall round_ok history → history !! j = Some r →
  round_failed r `sublist_of` start ∧ round_remaining r `sublist_of` start.
Proof.
  revert start j. induction history as [|r0 history IH]; intros start j; [done|].
  intros [Hstart Hchain] Hok Hj. apply Forall_cons in Hok as [(Hrem & _) Hok].
  destruct j as [|j]; simpl in Hj.
  - injection Hj as <-. rewrite <- Hstart. split; [done | exact Hrem].
  - destruct (IH _ _ Hchain Hok Hj) as [Hf Hr].
    rewrite <- Hstart. split; by etrans.
Qed.

Lemma chained_success_gone (start : list Z) (history : list Round) (k j : nat)
    (r r' : Round) (idx : Z) :
  chained start history → Forall round_ok history → NoDup start →
  history !! k = Some r → idx ∈ round_succeeded r →
  (k ≤ j)%nat → history !! j = Some r' →
  (idx ∉ round_remaining r') ∧ (k < j → idx ∉ round_failed r')%nat.
Proof.
  revert start k j. induction history as [|r0 history IH]; intros start k j; [done|].
  intros [Hstart Hchain] Hok Hnodup Hk Hidx Hle Hj.
  apply Forall_cons in Hok as [(Hrem & Hsucc & Hdisj) Hok].
  rewrite <- Hstart in Hnodup.
  destruct k as [|k]; simpl in Hk.
  - injection Hk as <-. specialize (Hdisj Hnodup idx Hidx).
    destruct j as [|j]; simpl in Hj.
    + injection Hj as <-. split; [done | lia].
    + destruct (chained_within _ _ _ _ Hchain Hok Hj) as [Hf Hr].
      split; [|intros _]; intros Hin; apply Hdisj; by eapply elem_of_sublist.
  - destruct j as [|j]; [lia|]. simpl in Hj.
    destruct (IH (round_remaining r0) k j Hchain Hok) as [H1 H2]; try done.
    + by eapply sublist_NoDup.
    + lia.
    + split; [done | intros ?; apply H2; lia].
Qed.

(** C4: over the retry rounds of a list of pairwise distinct failed indices,
    there are never more rounds than the round budget (two by default),
    each round starts from what the round before left and leaves a sublist
    of it, so the remaining set never grows, and an index that succeeds in
    round [k] is neither retried in a later round nor in the remaining set
    of round [k] or of any later round. *)
Theorem retry_rounds_converge (env : Environment) (settings : Settings.t)
    (failed : list Z) (max_retries : Z) (st : Orchestrator) :
  NoDup failed →
  let history := retry_history env settings failed max_retries st in
  (length history ≤ Z.to_nat max_retries)%nat ∧
  (length (retry_history env settings failed DEFAULT_RETRY_ROUNDS st) ≤ 2)%nat ∧
  (∀ r, history !! 0%nat = Some r → round_failed r = failed) ∧
  (∀ k r r', history !! k = Some r → history !! S k = Some r' →
     round_failed r' = round_remaining r) ∧
  (∀ k r, history !! k = Some r →
     round_remaining r `sublist_of` round_failed r ∧
     (length (round_remaining r) ≤ length (round_failed r))%nat) ∧
  (∀ k j r r' idx, history !! k = Some r → idx ∈ round_succeeded r →
     (k ≤ j)%nat → history !! j = Some r' →
     (idx ∉ round_remaining r') ∧ (k < j → idx ∉ round_failed r')%nat).
Proof.
  intros Hnodup history.
  assert (Hhist : ∀ budget,
    let h := retry_history env settings failed budget st in
    (length h ≤ Z.to_nat budget)%nat ∧ chained failed h ∧ Forall round_ok h).
  { intros budget. unfold retry_history.
    pose proof (retry_rounds_history env settings (Z.to_nat budget) 0 failed st) as H.
    by destruct (retry_rounds env settings (Z.to_nat budget) 0 failed st)
      as [[[rs remaining] h] st']. }
  destruct (Hhist max_retries) as (Hlen & Hchain & Hok). fold history in Hlen, Hchain, Hok.
  split; [exact Hlen|]. split; [apply (Hhist DEFAULT_RETRY_ROUNDS)|].
  split; [|split; [|split]].
  - intros r Hr. destruct history as [|r0 h]; [done|].
    injection Hr as <-. by destruct Hchain.
  - clear Hlen Hnodup. revert Hchain Hok. generalize failed. clear Hhist.
    induction history as [|r0 h IH]; intros start Hchain Hok k r r' Hk Hk'; [done|].
    destruct Hchain as [_ Hchain]. apply Forall_cons in Hok as [_ Hok].
    destruct k as [|k]; simpl in Hk, Hk'.
    + injection Hk as <-. destruct h as [|r1 h]; [done|].
      injection Hk' as <-. by destruct Hchain.
    + by eapply IH.
  - intros k r Hk. rewrite Forall_lookup in Hok. destruct (Hok k r Hk) as (Hrem & _).
    split; [exact Hrem | by apply sublist_length].
  - intros k j r r' idx. by apply chained_success_gone with (start := failed).
Qed.

Lemma retry_rounds_converge_witness :
  let history := retry_history Sample.flaky Sample.one_attempt [1; 2] 2 initial in
  (length history ≤ 2)%nat ∧
  ∀ k j r r' idx, history !! k = Some r → idx ∈ round_succeeded r →
    (k ≤ j)%nat → history !! j = Some r' →
    (idx ∉ round_remaining r') ∧ (k < j → idx ∉ round_failed r')%nat.
Proof.
  intros history.
  destruct (retry_rounds_converge Sample.flaky Sample.one_attempt [1; 2] 2 initial)
    as (Hlen & _ & _ & _ & _ & Hgone).
  - apply NoDup_cons. split; [by rewrite list_elem_of_singleton|].
    apply NoDup_singleton.
  - split; [exact Hlen | exact Hgone].
Defined.

(** With one attempt per item both indices fail in the first round (a
    refused answer, a timeout) and succeed in the second. *)
Example flaky_retry_history :
  retry_history Sample.flaky Sample.one_attempt [1; 2] 2 initial
  = [ mkRound [1; 2] [] [1; 2]; mkRound [1; 2] [1; 2] [] ].
Proof. by vm_compute. Qed.

(** ** Histories *)







Section Histories.

Variable env : Environment.
Variable settings : Settings.t.

Lemma run_worker_events (idx : Z) (st : Orchestrator) :
  ∃ ext, trace (run_worker env settings idx st).2 = ext ++ trace st ∧
         Forall collect_event ext ∧
         Finished idx (run_worker env settings idx st).1 ∈ ext.
Proof.
  unfold run_worker.
  pose proof (process_request_frame env settings idx st) as Hframe.
  destruct (process_request env settings idx st) as [result st1].
  cbv zeta in Hframe. cbn [snd] in Hframe.
  destruct Hframe as (_ & _ & ext & Htrace & Hext).
  exists (Finished idx result :: ext ++ [IsSet (is_set env st).1]).
  cbn [fst snd]. unfold log. cbn [trace]. rewrite Htrace. split; [|split].
  - cbn [app]. by rewrite <- app_assoc.
  - constructor; [done|]. apply Forall_app. split; [|by repeat constructor].
    eapply Forall_impl; [exact Hext|]. by intros [].
  - apply elem_of_cons. by left.
Qed.


Lemma drain_events (pending : list Z) (st : Orchestrator) :
  ∃ ext, trace (drain env settings pending st) = ext ++ trace st ∧
    Forall collect_event ext ∧
    ∀ idx, idx ∈ pending → ∃ result, Finished idx result ∈ ext.
Proof.
  revert st. induction pending as [|idx rest IH]; intros st.
  { exists []. repeat split; [done|]. intros idx Hin. by apply elem_of_nil in Hin. }
  cbn [drain].
  destruct (run_worker_events idx st) as (ext_w & Htrace_w & Hext_w & Hfin_w).
  destruct (IH (run_worker env settings idx st).2) as (ext & Htrace & Hext & Hfin).
  exists (ext ++ ext_w). rewrite Htrace, Htrace_w. split; [by rewrite <- app_assoc|]. split.
  - by apply Forall_app.
  - intros i Hi. apply elem_of_cons in Hi as [-> | Hi].
    + eexists. rewrite elem_of_app. right. exact Hfin_w.
    + destruct (Hfin i Hi) as [r Hr]. exists r. rewrite elem_of_app. auto.
Qed.

(** The periodic save writes either nothing or one checkpoint, for the
    index [current_index + batch_size]. *)
Lemma periodic_save_cases (processed interval current size : Z) (st : Orchestrator) :
  (processed `mod` interval = 0 ∧
   periodic_save settings processed interval current size st
   = save_all (save_progress settings (current + size) st) ∧
   ∃ p, a_index p = current + size ∧
        progress_input_tokens p = total_input_tokens st ∧
        progress_output_tokens p = total_output_tokens st ∧
        trace (periodic_save settings processed interval current size st)
        = SavedAll :: SavedProgress p :: trace st) ∨
  (processed `mod` interval ≠ 0 ∧
   periodic_save settings processed interval current size st = st).
Proof.
  unfold periodic_save. destruct (Z.eqb_spec (processed `mod` interval) 0) as [Hz | Hnz].
  - left. split; [done|]. split; [done|].
    exists (mkProgress (String.concat "," (Settings.lang_codes_list settings)) (current + size)
              (Settings.model_name settings) (total_input_tokens st) (total_output_tokens st)).
    by repeat split.
  - by right.
Qed.



(** Without a fault from outside, with a positive batch size and a save
    interval other than zero, the batch loop ends without a fault. *)
Lemma batch_loop_no_fault (fuel batch_no : nat) (total_subs size interval current : Z)
    (t : Tally) (st : Orchestrator) :
  (∀ n, interrupt env n = None) → 0 < size → interval ≠ 0 →
  (batch_loop env settings fuel batch_no total_subs size interval current t st).1.1.1 = None.
Proof.
  intros Hcalm Hsize Hinterval. revert batch_no current t st.
  induction fuel as [|fuel IH]; intros batch_no current t st; [done|].
  cbn [batch_loop]. destruct (Z.leb_spec current total_subs) as [Hle | Hgt]; [|done].
  destruct (is_set env st) as [flag st1]. destruct flag; [done|].
  destruct (range _ _) as [|first others] eqn:Hbatch.
  { unfold range in Hbatch. rewrite seqZ_cons in Hbatch by lia. done. }
  rewrite Hcalm.
  destruct (collect _ _ _ _ _) as [[t1 pending] st2].
  destruct (Z.eqb_spec interval 0) as [Hzero | _]; [done|].
  specialize (IH (S batch_no) (current + size) t1
                (periodic_save settings (processed_count t1) interval current size st2)).
  by destruct (batch_loop _ _ _ _ _ _ _ _ _ _) as [[[fault t2] pending'] st3].
Qed.

End Histories.

(** ** Periodic checkpoints *)



(** ** Shutdown *)




Lemma persistence_not_submission (l : list Event) :
  Forall persistence_event l → Forall not_submission l.
Proof. intros Hl. eapply Forall_impl; [exact Hl|]. by intros []. Qed.


Section Shutdown.

Variable env : Environment.
Variable settings : Settings.t.




(** Without the batch loop nothing is submitted. *)
Lemma step_quiet (st st' : Orchestrator) :
  step env settings false st st' →
  ∃ ext, trace st' = ext ++ trace st ∧ Forall not_submission ext.
Proof.
  destruct 1 as [st|idx st|batch st Hsub _|index st|e st He|st].
  - exists [IsSet (is_set env st).1]. rewrite is_set_trace. by repeat constructor.
  - destruct (process_request_frame env settings idx st) as (_ & _ & ext_w & Htrace_w & Hext_w).
    exists (ext_w ++ [IsSet (is_set env st).1]). rewrite Htrace_w. split; [same_history|].
    apply Forall_app. split; [by apply persistence_not_submission | by repeat constructor].
  - discriminate.
  - eexists [_]. unfold save_progress, log. cbn [trace]. by repeat constructor.
  - exists [e]. unfold log. cbn [trace]. split; [done|]. repeat constructor. by destruct e.
  - by exists [].
Qed.

Lemma steps_quiet (st st' : Orchestrator) :
  rtc (step env settings false) st st' →
  ∃ ext, trace st' = ext ++ trace st ∧ Forall not_submission ext.
Proof.
  induction 1 as [st|st st1 st2 Hstep _ (ext2 & Htrace2 & Hext2)]; [by exists []|].
  apply step_quiet in Hstep as (ext1 & Htrace1 & Hext1).
  exists (ext2 ++ ext1). rewrite Htrace2, Htrace1. split; [same_history|].
  by apply Forall_app.
Qed.

End Shutdown.

(** ** The failed list that the scheduler hands to the retry rounds *)

Section FailedList.

Variable env : Environment.
Variable settings : Settings.t.

(** [as_completed] yields every future of a batch exactly once. *)
Hypothesis once : ∀ n batch, completion env n batch ≡ₚ batch.

Lemma collect_failed (futures : list Z) (t : Tally) (st : Orchestrator) :
  ∃ l, failed_indices (collect env settings futures t st).1.1 = failed_indices t ++ l ∧
       l `sublist_of` futures.
Proof.
  revert t st. induction futures as [|idx rest IH]; intros t st.
  { exists []. by rewrite app_nil_r. }
  cbn [collect].
  destruct (run_worker env settings idx st) as [result st1].
  destruct (is_set env st1) as [flag st2]. destruct flag.
  { exists []. rewrite app_nil_r. split; [done | apply sublist_nil_l]. }
  destruct (IH (record_result idx result t) st2) as (l & Hl & Hsub).
  assert (Hcase : result = Return true ∨ result ≠ Return true).
  { destruct result as [[|]|e]; auto. }
  destruct Hcase as [-> | Hfail].
  - exists l. split; [exact Hl | by apply sublist_cons].
  - exists (idx :: l). rewrite Hl, (record_result_failed _ _ _ Hfail), <- app_assoc.
    split; [done | by apply sublist_skip].
Qed.

(** The indices that the batch loop appends to the failed list are pairwise
    distinct: each batch contributes indices of its own range only. *)
Lemma batch_loop_failed_distinct (fuel batch_no : nat)
    (total_subs size interval current : Z) (t : Tally) (st : Orchestrator) :
  ∃ l,
    failed_indices
      (batch_loop env settings fuel batch_no total_subs size interval current t st).1.1.2
    = failed_indices t ++ l ∧
    NoDup l ∧ ∀ idx, idx ∈ l → current ≤ idx.
Proof.
  assert (Hnil : ∀ t0 : Tally, ∃ l, failed_indices t0 = failed_indices t0 ++ l ∧
                                  NoDup l ∧ ∀ idx, idx ∈ l → current ≤ idx).
  { intros t0. exists []. rewrite app_nil_r. split; [done|]. split; [constructor|].
    intros idx Hin. by apply elem_of_nil in Hin. }
  revert batch_no current t st Hnil.
  induction fuel as [|fuel IH]; intros batch_no current t st Hnil; [apply Hnil|].
  cbn [batch_loop]. destruct (current <=? total_subs); [|apply Hnil].
  destruct (is_set env st) as [flag st1]. destruct flag; [apply Hnil|].
  destruct (range _ _) as [|first others] eqn:Hbatch; [apply Hnil|].
  destruct (interrupt env batch_no); [apply Hnil|].
  destruct (collect_failed (completion env batch_no (first :: others)) t
              (log (Submitted (first :: others)) st1)) as (l1 & Hl1 & Hsub1).
  destruct (collect _ _ _ _ _) as [[t1 pending] st2]. cbn [fst snd] in Hl1.
  assert (Hrange : ∀ idx, idx ∈ l1 → current ≤ idx < current + size).
  { intros idx Hin. apply (elem_of_sublist _ _ _ Hin) in Hsub1.
    rewrite once, <- Hbatch in Hsub1. unfold range in Hsub1.
    apply elem_of_seqZ in Hsub1. lia. }
  assert (Hnodup1 : NoDup l1).
  { apply (sublist_NoDup _ _) with (2 := Hsub1). rewrite once, <- Hbatch. apply NoDup_seqZ. }
  destruct (interval =? 0).
  { exists l1. cbn [fst snd]. split; [done|]. split; [done|]. intros idx Hin.
    apply Hrange in Hin. lia. }
  apply range_nonempty in Hbatch.
  destruct (IH (S batch_no) (current + size) t1
              (periodic_save settings (processed_count t1) interval current size st2))
    as (l2 & Hl2 & Hnodup2 & Hrange2).
  { intros t0. exists []. rewrite app_nil_r. split; [done|]. split; [constructor|].
    intros idx Hin. by apply elem_of_nil in Hin. }
  destruct (batch_loop _ _ _ _ _ _ _ _ _ _) as [[[fault t2] pending'] st3].
  cbn [fst snd] in *. exists (l1 ++ l2). rewrite Hl2, Hl1, <- app_assoc.
  split; [done|]. split.
  - apply NoDup_app. split; [done|]. split; [|done].
    intros idx Hin1 Hin2. apply Hrange in Hin1. apply Hrange2 in Hin2. lia.
  - intros idx Hin. apply elem_of_app in Hin as [Hin | Hin].
    + apply Hrange in Hin. lia.
    + apply Hrange2 in Hin. lia.
Qed.

(** Hence the list that [run_batch_translation] passes to
    [_retry_failed_items] has pairwise distinct indices. *)
Lemma scheduler_failed_distinct (fuel : nat) (total_subs size interval current : Z)
    (st : Orchestrator) :
  NoDup (failed_indices
           (batch_loop env settings fuel 0 total_subs size interval current
              (mkTally 0 0 []) st).1.1.2).
Proof.
  destruct (batch_loop_failed_distinct fuel 0 total_subs size interval current
              (mkTally 0 0 []) st) as (l & -> & Hnodup & _).
  exact Hnodup.
Qed.

End FailedList.

(** * Further properties of the executor *)

(** ** Extraction of the translations *)

Lemma first_translations_none (calls : list ToolCall) :
  TranslationExecutor.first_translations calls = None ↔ Forall call_silent calls.
Proof.
  induction calls as [|call rest IH]; simpl.
  { split; [constructor | done]. }
  rewrite Forall_cons, <- IH. unfold call_silent, call_offers.
  destruct (bool_decide_reflect (call_name call = Some TranslationExecutor.TOOL_NAME))
    as [Hname | Hname].
  - destruct (default ∅ (call_args call) !! "translations") as [tr|] eqn:Hargs.
    + split; [done|]. intros [Hsilent _]. by destruct (Hsilent tr).
    + split; [|by intros [_ ?]]. intros Hrest. split; [|done]. by intros tr [_ ?].
  - split; [|by intros [_ ?]]. intros Hrest. split; [|done]. by intros tr [? _].
Qed.

Lemma first_translations_some (calls : list ToolCall) (tr : Translations) :
  TranslationExecutor.first_translations calls = Some tr ↔
  ∃ earlier call later,
    calls = earlier ++ call :: later ∧ Forall call_silent earlier ∧ call_offers call tr.
Proof.
  induction calls as [|call rest IH]; simpl.
  { split; [done|]. intros (earlier & c & later & Heq & _). by destruct earlier. }
  assert (Hskip : call_silent call →
            (TranslationExecutor.first_translations rest = Some tr ↔
             ∃ earlier c later,
               call :: rest = earlier ++ c :: later ∧ Forall call_silent earlier ∧
               call_offers c tr)).
  { intros Hsilent. rewrite IH. split.
    - intros (earlier & c & later & -> & Hearlier & Hc).
      exists (call :: earlier), c, later. split; [done|]. split; [by constructor | done].
    - intros (earlier & c & later & Heq & Hearlier & Hc).
      destruct earlier as [|c0 earlier]; simpl in Heq; injection Heq as <- ->.
      + by destruct (Hsilent tr).
      + apply Forall_cons in Hearlier as [_ Hearlier]. by exists earlier, c, later. }
  destruct (bool_decide_reflect (call_name call = Some TranslationExecutor.TOOL_NAME))
    as [Hname | Hname].
  - destruct (default ∅ (call_args call) !! "translations") as [tr0|] eqn:Hargs.
    + split.
      * intros [= ->]. exists [], call, rest. split; [done|]. split; [constructor | done].
      * intros (earlier & c & later & Heq & Hearlier & Hc).
        destruct earlier as [|c0 earlier]; simpl in Heq; injection Heq as <- ->.
        -- destruct Hc as [_ Hc]. congruence.
        -- apply Forall_cons in Hearlier as [Hsilent _]. by destruct (Hsilent tr0).
    + apply Hskip. intros tr1 [_ Hc]. congruence.
  - apply Hskip. by intros tr1 [Hc _].
Qed.

Lemma has_tool_calls_default (msg : Message) :
  has_tool_calls msg = false → default [] (tool_calls msg) = [].
Proof. unfold has_tool_calls. by destruct (tool_calls msg) as [[|]|]. Qed.

Lemma extract_from_messages_step (msg : Message) (rest : list Message) :
  TranslationExecutor.extract_from_messages (msg :: rest)
  = match TranslationExecutor.first_translations (default [] (tool_calls msg)) with
    | Some tr => Some tr
    | None => TranslationExecutor.extract_from_messages rest
    end.
Proof.
  cbn [TranslationExecutor.extract_from_messages].
  destruct (has_tool_calls msg) eqn:Hcalls; [done|].
  by rewrite has_tool_calls_default.
Qed.

(** X1: [extract_translations] finds nothing exactly when no tool call of
    any message has the tool's name together with a ["translations"]
    argument; a response without the key ["messages"] is such a case. *)
Theorem extract_translations_none_iff (response : Response) :
  TranslationExecutor.extract_translations response = None ↔
  Forall message_silent (default [] (messages response)).
Proof.
  unfold TranslationExecutor.extract_translations.
  induction (default [] (messages response)) as [|msg rest IH].
  { split; [constructor | done]. }
  rewrite extract_from_messages_step, Forall_cons, <- IH.
  unfold message_silent at 1. rewrite <- first_translations_none.
  destruct (TranslationExecutor.first_translations (default [] (tool_calls msg)));
    [split; [done | by intros [? _]] | by split; [|intros [_ ?]]].
Qed.

(** X2: [extract_translations] returns the payload of the first accepted
    tool call: the earliest message that has one, and within it the
    earliest such call; accepted calls that come later are never looked at. *)
Theorem extract_translations_first_match (response : Response) (tr : Translations) :
  TranslationExecutor.extract_translations response = Some tr ↔
  ∃ before msg after earlier call later,
    default [] (messages response) = before ++ msg :: after ∧
    Forall message_silent before ∧
    tool_calls msg = Some (earlier ++ call :: later) ∧
    Forall call_silent earlier ∧
    call_offers call tr.
Proof.
  unfold TranslationExecutor.extract_translations.
  induction (default [] (messages response)) as [|msg rest IH].
  { split; [done|]. intros (before & m & after & _ & _ & _ & Heq & _). by destruct before. }
  rewrite extract_from_messages_step.
  destruct (TranslationExecutor.first_translations (default [] (tool_calls msg)))
    as [tr0|] eqn:Hfirst.
  - pose proof Hfirst as Hfirst'.
    apply first_translations_some in Hfirst as (earlier & call & later & Hcalls & Hearlier & Hcall).
    assert (Htool : tool_calls msg = Some (earlier ++ call :: later)).
    { destruct (tool_calls msg) as [calls|]; simpl in Hcalls; [by subst|]. by destruct earlier. }
    split.
    + intros [= ->]. exists [], msg, rest, earlier, call, later.
      split; [done|]. split; [constructor|]. by split.
    + intros (before & m & after & earlier' & call' & later' & Heq & Hbefore & Htool' & He' & Hc').
      destruct before as [|m0 before]; simpl in Heq; injection Heq as <- ->.
      * assert (Hsome : TranslationExecutor.first_translations (default [] (tool_calls msg))
                        = Some tr).
        { apply first_translations_some. exists earlier', call', later'.
          rewrite Htool'. by split. }
        congruence.
      * apply Forall_cons in Hbefore as [Hsilent _].
        apply first_translations_none in Hsilent. congruence.
  - rewrite IH. apply first_translations_none in Hfirst. split.
    + intros (before & m & after & earlier & call & later & -> & Hbefore & Hrest).
      exists (msg :: before), m, after, earlier, call, later.
      split; [done|]. split; [by constructor | done].
    + intros (before & m & after & earlier & call & later & Heq & Hbefore & Htool & He & Hc).
      destruct before as [|m0 before]; simpl in Heq; injection Heq as <- ->.
      * exfalso. unfold message_silent in Hfirst. rewrite Htool in Hfirst. simpl in Hfirst.
        apply Forall_app in Hfirst as [_ Hfirst].
        apply Forall_cons in Hfirst as [Hsilent _]. by destruct (Hsilent tr).
      * apply Forall_cons in Hbefore as [_ Hbefore].
        by exists before, m, after, earlier, call, later.
Qed.

(** ** Token usage *)

Lemma usage_of_skip (l k : list Message) :
  Forall no_usage l → TranslationExecutor.usage_of (l ++ k) = TranslationExecutor.usage_of k.
Proof.
  induction 1 as [|msg l Hmsg _ IH]; [done|].
  cbn [app TranslationExecutor.usage_of]. unfold no_usage in Hmsg. by rewrite Hmsg.
Qed.

(** X3: [extract_token_usage] reports the counts of the last message that
    has non-empty usage metadata and of that message only (the counts of
    earlier messages are not added); a count missing from the metadata is
    0; and without any such message the result is (0, 0). *)
Theorem extract_token_usage_last (response : Response) (before after : list Message)
    (msg : Message) (usage : gmap string Z) :
  (Forall no_usage (default [] (messages response)) →
   TranslationExecutor.extract_token_usage response = (0, 0)) ∧
  (default [] (messages response) = before ++ msg :: after →
   usage_metadata msg = Some usage → usage ≠ ∅ →
   Forall no_usage after →
   TranslationExecutor.extract_token_usage response
   = (default 0 (usage !! "input_tokens"), default 0 (usage !! "output_tokens"))).
Proof.
  unfold TranslationExecutor.extract_token_usage. split.
  - intros Hnone. apply Forall_reverse in Hnone.
    rewrite <- (app_nil_r (reverse _)). by rewrite usage_of_skip.
  - intros -> Husage Hne Hafter.
    rewrite reverse_app, reverse_cons, <- app_assoc.
    rewrite usage_of_skip by by apply Forall_reverse.
    cbn [app TranslationExecutor.usage_of]. unfold TranslationExecutor.has_usage.
    rewrite Husage. by rewrite bool_decide_eq_false_2.
Qed.

Lemma extract_token_usage_last_witness :
  TranslationExecutor.extract_token_usage Cases.usage_response = (7, 0).
Proof.
  destruct (extract_token_usage_last Cases.usage_response [Cases.usage_early]
              [Cases.usage_absent] Cases.usage_partial {[ "input_tokens" := 7 ]})
    as [_ Hlast].
  apply Hlast.
  - reflexivity.
  - reflexivity.
  - intros Hempty. by apply (f_equal (λ m : gmap string Z, m !! "input_tokens")) in Hempty.
  - by repeat constructor.
Defined.

(** ** The result of an execution *)

(** X4: [execute_async] composes its helpers.  When the agent raises or
    times out the result is [(False, {}, 0, 0)].  When it returns, the token
    counts are those of [extract_token_usage] in every case; the execution
    succeeds with the extracted mapping when [is_valid_response] accepts the
    response and [extract_translations] gives a non-empty mapping, and it
    fails with the empty mapping in every other case.  [execute_sync]
    returns the same tuple. *)
Theorem execute_async_result (agent : TranslationExecutor.Agent) (ko_text context : string)
    (target_langs : list string) :
  TranslationExecutor.execute_async agent ko_text context target_langs
  = Return (TranslationExecutor.execute_sync agent ko_text context target_langs) ∧
  match agent ko_text context target_langs with
  | Raise _ =>
      TranslationExecutor.execute_sync agent ko_text context target_langs = (false, ∅, 0, 0)
  | Return response =>
      let usage := TranslationExecutor.extract_token_usage response in
      (∀ tr,
         TranslationExecutor.is_valid_response response = true →
         TranslationExecutor.extract_translations response = Some tr →
         tr ≠ ∅ →
         TranslationExecutor.execute_sync agent ko_text context target_langs
         = (true, tr, usage.1, usage.2)) ∧
      (TranslationExecutor.is_valid_response response = false ∨
       TranslationExecutor.extract_translations response = None ∨
       TranslationExecutor.extract_translations response = Some ∅ →
       TranslationExecutor.execute_sync agent ko_text context target_langs
       = (false, ∅, usage.1, usage.2))
  end.
Proof.
  unfold TranslationExecutor.execute_sync.
  pose proof (execute_async_cases agent ko_text context target_langs) as Hcases.
  destruct (agent ko_text context target_langs) as [response|e]; [|by rewrite Hcases].
  destruct (TranslationExecutor.extract_token_usage response) as [i o]. cbn [fst snd].
  destruct (TranslationExecutor.is_valid_response response) eqn:Hvalid; cbn [andb] in Hcases.
  - destruct (TranslationExecutor.extract_translations response) as [tr0|] eqn:Hext;
      cbn [TranslationExecutor.falsy negb default] in Hcases.
    + destruct (decide (tr0 = ∅)) as [-> | Hne].
      * rewrite bool_decide_eq_true_2 in Hcases by done. cbn [negb] in Hcases.
        rewrite Hcases. split; [done|]. split; [|done]. by intros tr _ [= <-] Hne.
      * rewrite bool_decide_eq_false_2 in Hcases by done. cbn [negb] in Hcases.
        rewrite Hcases. split; [done|]. split; [by intros tr _ [= <-] _|].
        intros [? | [? | [= ?]]]; done.
    + rewrite Hcases. split; [done|]. split; [by intros tr _ ? | done].
  - rewrite Hcases. split; [done|]. split; [by intros tr ? | done].
Qed.

Lemma execute_async_result_witness :
  TranslationExecutor.execute_sync (λ _ _ _, Return Sample.translated) "annyeonghaseyo" "" ["en"]
  = (true, {[ "en" := "Hello" ]}, 10, 5) ∧
  TranslationExecutor.execute_sync (λ _ _ _, Return Sample.refused) "annyeonghaseyo" "" ["en"]
  = (false, ∅, 7, 3).
Proof.
  split.
  - apply (execute_async_result (λ _ _ _, Return Sample.translated) "annyeonghaseyo" "" ["en"]);
      [reflexivity | reflexivity |].
    intros H. by apply (f_equal (λ tr : Translations, tr !! "en")) in H.
  - apply (execute_async_result (λ _ _ _, Return Sample.refused) "annyeonghaseyo" "" ["en"]).
    by left.
Defined.

(** ** Validity and the letters of the text *)

Lemma lower_ascii_idem (c : ascii) :
  Text.lower_ascii (Text.lower_ascii c) = Text.lower_ascii c.
Proof. by destruct c as [[] [] [] [] [] [] [] []]. Qed.

Lemma isspace_lower (c : ascii) : Text.isspace (Text.lower_ascii c) = Text.isspace c.
Proof. by destruct c as [[] [] [] [] [] [] [] []]. Qed.

Lemma lower_idem (s : string) : Text.lower (Text.lower s) = Text.lower s.
Proof. induction s as [|c s IH]; [done|]. simpl. by rewrite lower_ascii_idem, IH. Qed.

Lemma length_lower (s : string) : String.length (Text.lower s) = String.length s.
Proof. induction s as [|c s IH]; [done|]. simpl. by rewrite IH. Qed.

Lemma is_empty_lower (s : string) : Text.is_empty (Text.lower s) = Text.is_empty s.
Proof. by destruct s. Qed.

Lemma lstrip_lower (s : string) : Text.lstrip (Text.lower s) = Text.lower (Text.lstrip s).
Proof.
  induction s as [|c s IH]; [done|]. simpl. rewrite isspace_lower.
  by destruct (Text.isspace c).
Qed.

Lemma rstrip_lower (s : string) : Text.rstrip (Text.lower s) = Text.lower (Text.rstrip s).
Proof.
  induction s as [|c s IH]; [done|]. simpl. rewrite IH.
  destruct (Text.rstrip s); simpl; [|done]. rewrite isspace_lower.
  by destruct (Text.isspace c).
Qed.

Lemma len_strip_lower (s : string) :
  Text.len (Text.strip (Text.lower s)) = Text.len (Text.strip s).
Proof.
  unfold Text.strip, Text.len. by rewrite lstrip_lower, rstrip_lower, length_lower.
Qed.

(** The verdict on a response with a last message, from that message. *)
Lemma is_valid_response_last (msgs : list Message) (msg : Message) :
  TranslationExecutor.is_valid_response (mkResponse (Some (msgs ++ [msg])))
  = (has_tool_calls msg ||
     (negb (Text.is_empty (content msg)) &&
      negb (Text.len (Text.strip (content msg)) <? 5) &&
      negb (TranslationExecutor.any_pattern AppConstants.REPETITIVE_PATTERNS
              (Text.lower (content msg))) &&
      negb (TranslationExecutor.any_pattern AppConstants.TOOL_PATTERNS
              (Text.lower (content msg))))).
Proof.
  unfold TranslationExecutor.is_valid_response. cbn [messages].
  rewrite last_snoc. destruct (has_tool_calls msg); [done|]. cbv zeta.
  destruct (Text.is_empty (content msg)); [done|].
  destruct (Text.len (Text.strip (content msg)) <? 5); [done|]. cbn [orb negb andb].
  destruct (TranslationExecutor.any_pattern AppConstants.REPETITIVE_PATTERNS _); [done|].
  by destruct (TranslationExecutor.any_pattern AppConstants.TOOL_PATTERNS _).
Qed.

(** X5: the verdict of [is_valid_response] depends on the last message
    only, and on its text only up to the case of the letters: two responses
    whose last messages have the same tool calls and ASCII texts that are
    equal in lower case get the same verdict, whatever the earlier messages
    are. *)
Theorem is_valid_response_case_insensitive (msgs1 msgs2 : list Message) (msg1 msg2 : Message) :
  isascii (content msg1) = true → isascii (content msg2) = true →
  tool_calls msg1 = tool_calls msg2 →
  Text.lower (content msg1) = Text.lower (content msg2) →
  TranslationExecutor.is_valid_response (mkResponse (Some (msgs1 ++ [msg1])))
  = TranslationExecutor.is_valid_response (mkResponse (Some (msgs2 ++ [msg2]))).
Proof.
  intros _ _ Hcalls Hlower. rewrite !is_valid_response_last.
  unfold has_tool_calls. rewrite Hcalls, Hlower.
  rewrite <- (is_empty_lower (content msg1)), <- (len_strip_lower (content msg1)).
  rewrite <- (is_empty_lower (content msg2)), <- (len_strip_lower (content msg2)).
  by rewrite Hlower.
Qed.

Lemma contains_wrap (p s before after : string) :
  Text.contains p s = true → Text.contains p (before +:+ s +:+ after) = true.
Proof.
  rewrite !contains_spec. intros (l & r & ->). exists (before +:+ l), (r +:+ after).
  clear. induction before as [|c before IH]; simpl.
  - rewrite !append_empty_l. induction l as [|c l IH]; simpl.
    + rewrite !append_empty_l. induction p as [|c p IH]; [done|].
      rewrite !append_cons. by f_equal.
    + rewrite !append_cons. by f_equal.
  - rewrite !append_cons. by f_equal.
Qed.

Lemma any_pattern_wrap (patterns : list string) (s before after : string) :
  TranslationExecutor.any_pattern patterns (Text.lower s) = true →
  TranslationExecutor.any_pattern patterns (Text.lower (before +:+ s +:+ after)) = true.
Proof.
  unfold TranslationExecutor.any_pattern. rewrite !existsb_exists.
  intros (p & Hin & Hp). exists p. split; [done|].
  rewrite !lower_app. by apply contains_wrap.
Qed.

(** X6: a text that is rejected for one of the configured phrases stays
    rejected with any text put before and after it: without tool calls on
    the last message, no surrounding text makes the response valid. *)
Theorem rejected_phrase_cannot_be_wrapped (msgs : list Message) (msg : Message)
    (before after : string) :
  has_tool_calls msg = false →
  TranslationExecutor.any_pattern AppConstants.REPETITIVE_PATTERNS (Text.lower (content msg))
    = true ∨
  TranslationExecutor.any_pattern AppConstants.TOOL_PATTERNS (Text.lower (content msg))
    = true →
  TranslationExecutor.is_valid_response
    (mkResponse (Some (msgs ++ [wrap_content before after msg]))) = false.
Proof.
  intros Hcalls Hmatch. rewrite is_valid_response_last.
  unfold wrap_content at 1. unfold has_tool_calls in *. cbn [tool_calls]. rewrite Hcalls.
  cbn [orb content wrap_content].
  destruct Hmatch as [Hmatch | Hmatch];
    apply (any_pattern_wrap _ _ before after) in Hmatch; rewrite Hmatch;
    cbn [negb]; by rewrite ?andb_false_r.
Qed.

Lemma is_valid_response_case_insensitive_witness :
  TranslationExecutor.is_valid_response (mkResponse (Some [Cases.shouted]))
  = TranslationExecutor.is_valid_response
      (mkResponse (Some [Sample.chatter_only; Cases.whispered])).
Proof.
  apply (is_valid_response_case_insensitive [] [Sample.chatter_only]
           Cases.shouted Cases.whispered); reflexivity.
Defined.

Lemma rejected_phrase_cannot_be_wrapped_witness :
  TranslationExecutor.is_valid_response
    (mkResponse (Some [wrap_content "Here is the translation you asked for. " " Thank you."
                         Sample.chatter_only])) = false.
Proof.
  apply (rejected_phrase_cannot_be_wrapped [] Sample.chatter_only
           "Here is the translation you asked for. " " Thank you.").
  - reflexivity.
  - left. reflexivity.
Defined.

(** * Further properties of the set-up *)

(** ** The choice of the model *)

Lemma getitem_in_range {A : Type} (l : list A) (i : Z) :
  - Z.of_nat (length l) ≤ i < Z.of_nat (length l) →
  ∃ x, getitem l i = Some x ∧
       l !! Z.to_nat (if 0 <=? i then i else Z.of_nat (length l) + i) = Some x.
Proof.
  intros Hrange. unfold getitem. destruct (Z.leb_spec 0 i) as [Hpos | Hneg].
  - destruct (lookup_lt_is_Some_2 l (Z.to_nat i)) as [x Hx]; [lia|]. by exists x.
  - destruct (Z.leb_spec 0 (Z.of_nat (length l) + i)); [|lia].
    destruct (lookup_lt_is_Some_2 l (Z.to_nat (Z.of_nat (length l) + i))) as [x Hx]; [lia|].
    by exists x.
Qed.

Lemma getitem_out_of_range {A : Type} (l : list A) (i : Z) :
  ¬ (- Z.of_nat (length l) ≤ i < Z.of_nat (length l)) → getitem l i = None.
Proof.
  intros Hrange. unfold getitem. destruct (Z.leb_spec 0 i) as [Hpos | Hneg].
  - apply lookup_ge_None_2. lia.
  - destruct (Z.leb_spec 0 (Z.of_nat (length l) + i)); [lia | done].
Qed.

(** X7: with at least one model in the list, the choice of the model never
    fails and always names a model of the list.  An index from 0 up to the
    length chooses that entry without a warning; an index below zero down to
    minus the length does not fall back to the default: it chooses the
    entry counted from the end, also without a warning; any other index
    chooses the first entry and logs the warning. *)
Theorem choose_model_from_cases (models : list string) (model_priority_index : Z) :
  models ≠ [] →
  ∃ name warned,
    choose_model_from models model_priority_index = Some (name, warned) ∧
    name ∈ models ∧
    (0 ≤ model_priority_index < Z.of_nat (length models) →
     warned = false ∧ models !! Z.to_nat model_priority_index = Some name) ∧
    (- Z.of_nat (length models) ≤ model_priority_index < 0 →
     warned = false ∧
     models !! Z.to_nat (Z.of_nat (length models) + model_priority_index) = Some name) ∧
    (¬ (- Z.of_nat (length models) ≤ model_priority_index < Z.of_nat (length models)) →
     warned = true ∧ models !! 0%nat = Some name).
Proof.
  intros Hne. unfold choose_model_from.
  destruct (decide (- Z.of_nat (length models) ≤ model_priority_index
                    < Z.of_nat (length models))) as [Hin | Hout].
  - destruct (getitem_in_range models model_priority_index Hin) as (name & -> & Hname).
    exists name, false. split; [done|]. split; [by eapply list_elem_of_lookup_2|].
    split; [|split]; [| |done].
    + intros Hpos. destruct (Z.leb_spec 0 model_priority_index); [done | lia].
    + intros Hneg. destruct (Z.leb_spec 0 model_priority_index); [lia | done].
  - rewrite (getitem_out_of_range _ _ Hout).
    destruct models as [|first rest]; [done|]. cbn.
    exists first, true. split; [done|]. split; [by left|].
    split; [|split]; [intros ?; simpl in *; lia.. | done].
Qed.

Lemma choose_model_from_cases_witness :
  ∃ name warned,
    choose_model (-1) = Some (name, warned) ∧
    name ∈ AppConstants.MODEL_PRIORITY_LIST.
Proof.
  destruct (choose_model_from_cases AppConstants.MODEL_PRIORITY_LIST (-1))
    as (name & warned & Hchoice & Hin & _); [done|].
  by exists name, warned.
Defined.

(** With the list of the program: index 2 and index -6 both choose the
    third model, index 8 falls back to the first. *)
Example choose_model_examples :
  choose_model 2 = Some ("gemma2-9b-it", false) ∧
  choose_model (-6) = Some ("gemma2-9b-it", false) ∧
  choose_model (-1) = Some ("deepseek-r1-distill-llama-70b", false) ∧
  choose_model 8 = Some ("openai/gpt-oss-20b", true) ∧
  choose_model (-9) = Some ("openai/gpt-oss-20b", true).
Proof. by vm_compute. Qed.

(** ** The pipeline builder *)

Lemma link_loop_seq (handlers : list TranslationPipelineBuilder.Handler) (start count : nat) :
  (start + count < length handlers)%nat →
  ∃ links,
    TranslationPipelineBuilder.link_loop handlers (seq start count) = Some links ∧
    length links = count ∧
    ∀ k link, links !! k = Some link →
      ∃ h next, link = ((start + k)%nat, h, next) ∧
        handlers !! (start + k)%nat = Some h ∧ handlers !! S (start + k) = Some next.
Proof.
  revert start. induction count as [|count IH]; intros start Hlen.
  { exists []. by repeat split. }
  cbn [seq TranslationPipelineBuilder.link_loop].
  destruct (lookup_lt_is_Some_2 handlers start) as [h Hh]; [lia|].
  destruct (lookup_lt_is_Some_2 handlers (S start)) as [next Hnext]; [lia|].
  rewrite Hh, Hnext.
  destruct (IH (S start)) as (links & -> & Hcount & Hlinks); [lia|].
  exists ((start, h, next) :: links). split; [done|]. split; [by simpl; rewrite Hcount|].
  intros [|k] link Hk; simpl in Hk.
  - injection Hk as <-. exists h, next. by rewrite Nat.add_0_r.
  - destruct (Hlinks k link Hk) as (h' & next' & -> & Hh' & Hnext').
    exists h', next'. by rewrite <- Nat.add_succ_comm.
Qed.

(** X8: [build] raises [ValueError] exactly when the builder has no
    handler, as after [reset] whatever was added before.  Otherwise none of
    its subscripts is out of range, it returns the handler added first and
    makes one call of [set_next] for every handler but the last, in the
    order of addition, each giving a handler the one added right after it.
    For the orchestrator this is validation, execution with the configured
    number of attempts, persistence, logging. *)
Theorem build_links_in_order (self : TranslationPipelineBuilder.t) (settings : Settings.t) :
  (TranslationPipelineBuilder.build self
   = TranslationPipelineBuilder.ValueError "Pipeline must have at least one handler"
   ↔ self = []) ∧
  TranslationPipelineBuilder.build (TranslationPipelineBuilder.reset self)
  = TranslationPipelineBuilder.ValueError "Pipeline must have at least one handler" ∧
  (self ≠ [] →
   ∃ first links,
     TranslationPipelineBuilder.build self = TranslationPipelineBuilder.Pipeline first links ∧
     self !! 0%nat = Some first ∧
     S (length links) = length self ∧
     ∀ k link, links !! k = Some link →
       ∃ h next, link = (k, h, next) ∧ self !! k = Some h ∧ self !! S k = Some next) ∧
  TranslationPipelineBuilder.of_orchestrator settings
  = TranslationPipelineBuilder.Pipeline TranslationPipelineBuilder.ValidationHandler
      [ (0%nat, TranslationPipelineBuilder.ValidationHandler,
         TranslationPipelineBuilder.ExecutionHandler (Settings.max_retries settings));
        (1%nat, TranslationPipelineBuilder.ExecutionHandler (Settings.max_retries settings),
         TranslationPipelineBuilder.PersistenceHandler);
        (2%nat, TranslationPipelineBuilder.PersistenceHandler,
         TranslationPipelineBuilder.LoggingHandler) ].
Proof.
  assert (Hbuild : self ≠ [] →
    ∃ first links,
      TranslationPipelineBuilder.build self = TranslationPipelineBuilder.Pipeline first links ∧
      self !! 0%nat = Some first ∧
      S (length links) = length self ∧
      ∀ k link, links !! k = Some link →
        ∃ h next, link = (k, h, next) ∧ self !! k = Some h ∧ self !! S k = Some next).
  { intros Hne. destruct self as [|first rest]; [done|].
    unfold TranslationPipelineBuilder.build.
    destruct (link_loop_seq (first :: rest) 0 (length (first :: rest) - 1))
      as (links & -> & Hcount & Hlinks); [simpl; lia|].
    exists first, links. split; [done|]. split; [done|].
    split; [rewrite Hcount; simpl; lia | exact Hlinks]. }
  split; [|split; [done|split; [exact Hbuild | done]]].
  split; [|by intros ->].
  intros Herror. destruct self as [|first rest]; [done|].
  destruct Hbuild as (f & links & Hpipeline & _); [done|]. congruence.
Qed.

Lemma build_links_in_order_witness :
  ∃ first links,
    TranslationPipelineBuilder.build
      (TranslationPipelineBuilder.add_validation TranslationPipelineBuilder.new)
    = TranslationPipelineBuilder.Pipeline first links ∧
    S (length links) = 1%nat.
Proof.
  destruct (build_links_in_order
              (TranslationPipelineBuilder.add_validation TranslationPipelineBuilder.new)
              Sample.settings) as (_ & _ & Hbuild & _).
  destruct Hbuild as (first & links & Hpipeline & _ & Hcount & _); [done|].
  by exists first, links.
Defined.

(** * Further properties of the scheduler *)

(** ** Batches, counters and checkpoints of the batch loop *)

Lemma submitted_batches_app (l k : list Event) :
  submitted_batches (l ++ k) = submitted_batches k ++ submitted_batches l.
Proof.
  induction l as [|e l IH]; [by rewrite app_nil_r|].
  destruct e; cbn [app submitted_batches]; rewrite IH; try done. by rewrite app_assoc.
Qed.

Lemma submitted_batches_quiet (l : list Event) :
  Forall not_submission l → submitted_batches l = [].
Proof. induction 1 as [|e l He _ IH]; [done|]. by destruct e. Qed.

Lemma collect_not_submission (l : list Event) :
  Forall collect_event l → Forall not_submission l.
Proof. intros Hl. eapply Forall_impl; [exact Hl|]. by intros []. Qed.

Lemma checkpoints_app (l k : list Event) :
  checkpoints (l ++ k) = checkpoints l ++ checkpoints k.
Proof.
  induction l as [|e l IH]; [done|]. destruct e; cbn [app checkpoints]; by rewrite IH.
Qed.

Lemma checkpoints_collect (l : list Event) :
  Forall collect_event l → checkpoints l = [].
Proof. induction 1 as [|e l He _ IH]; [done|]. by destruct e. Qed.

Lemma descending_app (l k : list Z) :
  descending l → descending k → (∀ a b, a ∈ l → b ∈ k → b < a) → descending (l ++ k).
Proof.
  induction l as [|a l IH]; [done|]. cbn [app descending]. intros [Ha Hl] Hk Hlk. split.
  - apply Forall_app. split; [done|]. apply Forall_forall. intros b Hb.
    apply Hlk; [by left | done].
  - apply IH; [done..|]. intros a' b Ha' Hb. apply Hlk; [by right | done].
Qed.

Lemma range_app (lo mid hi : Z) :
  lo ≤ mid ≤ hi → range lo mid ++ range mid hi = range lo hi.
Proof.
  intros Hle. unfold range. replace (hi - lo) with ((mid - lo) + (hi - mid)) by lia.
  rewrite seqZ_app by lia. by replace (lo + (mid - lo)) with mid by lia.
Qed.

Lemma range_empty (lo hi : Z) : hi ≤ lo → range lo hi = [].
Proof. intros Hle. unfold range. apply seqZ_nil. lia. Qed.

Lemma length_range (lo hi : Z) : length (range lo hi) = Z.to_nat (hi - lo).
Proof. unfold range. apply length_seqZ. Qed.

Lemma record_result_consistent (idx : Z) (result : Outcome bool) (t : Tally) :
  tally_consistent t → tally_consistent (record_result idx result t).
Proof.
  unfold tally_consistent.
  destruct result as [[|]|[|msg]]; cbn; rewrite ?length_app; cbn; lia.
Qed.

Section Ledger.

Variable env : Environment.
Variable settings : Settings.t.

(** The collection loop keeps the counters in agreement, and counts every
    future when no read of the flag finds it set. *)
Lemma collect_ledger (futures : list Z) (t : Tally) (st : Orchestrator) :
  let '(t', _, st') := collect env settings futures t st in
  ∃ ext, trace st' = ext ++ trace st ∧ Forall collect_event ext ∧
    (tally_consistent t → tally_consistent t') ∧
    processed_count t ≤ processed_count t' ≤ processed_count t + Z.of_nat (length futures) ∧
    (IsSet true ∉ ext →
     processed_count t' = processed_count t + Z.of_nat (length futures)).
Proof.
  revert t st. induction futures as [|idx rest IH]; intros t st.
  { exists []. cbn. split; [done|]. split; [done|]. split; [done|]. split; lia. }
  cbn [collect].
  destruct (run_worker_events env settings idx st) as (ext_w & Htrace_w & Hext_w & _).
  destruct (run_worker env settings idx st) as [result st1]. cbn [fst snd] in *.
  pose proof (is_set_trace env st1) as Htrace_o.
  destruct (is_set env st1) as [flag st2]. cbn [fst snd] in Htrace_o.
  destruct flag.
  - exists (IsSet true :: ext_w). rewrite Htrace_o, Htrace_w.
    split; [done|]. split; [by constructor|]. split; [done|].
    split; [cbn [length]; lia|].
    intros Hquiet. exfalso. apply Hquiet. by left.
  - specialize (IH (record_result idx result t) st2).
    destruct (collect env settings rest (record_result idx result t) st2)
      as [[t' pending] st'].
    destruct IH as (ext & Htrace & Hext & Hagree & Hbound & Hcount).
    rewrite record_result_processed in Hbound.
    exists (ext ++ IsSet false :: ext_w). rewrite Htrace, Htrace_o, Htrace_w.
    split; [by rewrite <- app_assoc|]. split.
    { apply Forall_app. split; [done | by constructor]. }
    split.
    { intros Ht. by apply Hagree, record_result_consistent. }
    split; [cbn [length]; lia|].
    intros Hquiet. rewrite Hcount, record_result_processed.
    + cbn [length]. lia.
    + intros Hin. apply Hquiet. rewrite elem_of_app. by left.
Qed.

(** The ledger of the batch loop: the batches it submits are the
    consecutive pieces of a range that starts at [current]; the counters
    stay in agreement; the checkpoints grow; and a loop that nothing stops
    goes through all the indices up to the last. *)
Lemma batch_loop_ledger (fuel batch_no : nat) (total_subs size interval current : Z)
    (t : Tally) (st : Orchestrator) :
  let '(fault, t', _, st') :=
    batch_loop env settings fuel batch_no total_subs size interval current t st in
  ∃ ext next,
    trace st' = ext ++ trace st ∧
    concat (submitted_batches ext) = range current next ∧
    current ≤ next ≤ Z.max current (total_subs + 1) ∧
    Forall (batch_within size) (submitted_batches ext) ∧
    (tally_consistent t → tally_consistent t') ∧
    Forall (λ c, current + size ≤ c ≤ total_subs + size) (checkpoints ext) ∧
    descending (checkpoints ext) ∧
    ((∀ n batch, length (completion env n batch) = length batch) →
     processed_count t ≤ processed_count t' ≤ processed_count t + (next - current)) ∧
    (fault = None → IsSet true ∉ ext → (Z.to_nat (total_subs - current + 1) ≤ fuel)%nat →
     next = Z.max current (total_subs + 1) ∧
     ((∀ n batch, length (completion env n batch) = length batch) →
      processed_count t' = processed_count t + (next - current))).
Proof.
  revert batch_no current t st.
  induction fuel as [|fuel IH]; intros batch_no current t st.
  { exists [], current. cbn [app submitted_batches concat checkpoints descending].
    rewrite range_empty by lia.
    split; [done|]. split; [done|]. split; [lia|]. split; [done|]. split; [done|].
    split; [done|]. split; [done|]. split; [lia|]. intros _ _ Hfuel. split; lia. }
  cbn [batch_loop]. destruct (Z.leb_spec current total_subs) as [Hle | Hgt].
  2:{ exists [], current. cbn [app submitted_batches concat checkpoints descending].
      rewrite range_empty by lia.
      split; [done|]. split; [done|]. split; [lia|]. split; [done|]. split; [done|].
      split; [done|]. split; [done|]. split; [lia|]. intros _ _ _. split; lia. }
  pose proof (is_set_trace env st) as Htrace_o.
  destruct (is_set env st) as [flag st1]. cbn [fst snd] in Htrace_o.
  destruct flag.
  { exists [IsSet true], current. cbn [app submitted_batches concat checkpoints descending].
    rewrite range_empty by lia.
    split; [done|]. split; [done|]. split; [lia|]. split; [done|]. split; [done|].
    split; [done|]. split; [done|]. split; [lia|].
    intros _ Hquiet. exfalso. apply Hquiet. by left. }
  destruct (range _ _) as [|first others] eqn:Hbatch.
  { exists [IsSet false], current. cbn [app submitted_batches concat checkpoints descending].
    rewrite range_empty by lia.
    split; [done|]. split; [done|]. split; [lia|]. split; [done|]. split; [done|].
    split; [done|]. split; [done|]. split; [lia | done]. }
  rewrite <- Hbatch.
  assert (Hhi : current < Z.min (current + size) (total_subs + 1)).
  { by eapply range_nonempty. }
  assert (Hwithin : batch_within size
                      (range current (Z.min (current + size) (total_subs + 1)))).
  { unfold batch_within. rewrite length_range. lia. }
  clear Hbatch first others.
  set (batch := range current (Z.min (current + size) (total_subs + 1))) in *.
  destruct (interrupt env batch_no) as [fault|].
  { exists [Submitted batch; IsSet false], (Z.min (current + size) (total_subs + 1)).
    unfold log. cbn [trace app submitted_batches concat checkpoints descending].
    rewrite Htrace_o, app_nil_r.
    split; [done|]. split; [done|]. split; [lia|]. split; [by constructor|]. split; [done|].
    split; [done|]. split; [done|]. split; [lia | done]. }
  pose proof (collect_ledger (completion env batch_no batch) t (log (Submitted batch) st1))
    as Hcollect.
  destruct (collect _ _ _ _ _) as [[t1 pending] st2].
  destruct Hcollect as (ext_c & Htrace_c & Hext_c & Hagree_c & Hbound_c & Hcount_c).
  assert (Hlen : (∀ n b, length (completion env n b) = length b) →
                 Z.of_nat (length (completion env batch_no batch))
                 = Z.min (current + size) (total_subs + 1) - current).
  { intros Hall. rewrite Hall. subst batch. rewrite length_range. lia. }
  unfold log in Htrace_c. cbn [trace] in Htrace_c. rewrite Htrace_o in Htrace_c.
  assert (Hsub_c : submitted_batches (ext_c ++ [Submitted batch; IsSet false]) = [batch]).
  { rewrite submitted_batches_app, (submitted_batches_quiet ext_c)
      by by apply collect_not_submission.
    by rewrite app_nil_r. }
  assert (Hcheck_c : checkpoints (ext_c ++ [Submitted batch; IsSet false]) = []).
  { by rewrite checkpoints_app, checkpoints_collect. }
  destruct (Z.eqb_spec interval 0) as [Hzero | Hinterval].
  { exists (ext_c ++ [Submitted batch; IsSet false]), (Z.min (current + size) (total_subs + 1)).
    rewrite Hsub_c, Hcheck_c, Htrace_c. cbn [concat]. rewrite app_nil_r.
    split; [same_history|]. split; [done|]. split; [lia|]. split; [by constructor|].
    split; [done|]. split; [done|]. split; [done|].
    split; [intros Hall; specialize (Hlen Hall); lia | done]. }
  assert (Hsave : ∃ ext_s,
    trace (periodic_save settings (processed_count t1) interval current size st2)
    = ext_s ++ ext_c ++ [Submitted batch; IsSet false] ++ trace st ∧
    Forall not_submission ext_s ∧ (IsSet true ∉ ext_s) ∧
    (checkpoints ext_s = [] ∨ checkpoints ext_s = [current + size])).
  { destruct (periodic_save_cases settings (processed_count t1) interval current size st2)
      as [(_ & _ & p & Hp_idx & _ & _ & Htrace_s) | (_ & ->)].
    - exists [SavedAll; SavedProgress p]. rewrite Htrace_s, Htrace_c.
      split; [done|]. split; [by repeat constructor|]. split.
      + rewrite !elem_of_cons. intros [Hin | [Hin | Hin]]; try done.
        by apply elem_of_nil in Hin.
      + right. cbn [checkpoints]. by rewrite Hp_idx.
    - exists []. rewrite Htrace_c. split; [done|]. split; [done|].
      split; [apply not_elem_of_nil | by left]. }
  destruct Hsave as (ext_s & Htrace_s & Hext_s & Hquiet_s & Hcheck_s).
  specialize (IH (S batch_no) (current + size) t1
                (periodic_save settings (processed_count t1) interval current size st2)).
  destruct (batch_loop _ _ _ _ _ _ _ _ _ _) as [[[fault t2] pending'] st3].
  destruct IH as (ext_r & next_r & Htrace_r & Hconcat_r & Hnext_r & Hwithin_r & Hagree_r
                  & Hbound_r & Hdesc_r & Hmost_r & Hfull_r).
  exists (ext_r ++ ext_s ++ ext_c ++ [Submitted batch; IsSet false]),
    (if decide (current + size ≤ total_subs + 1) then next_r else total_subs + 1).
  assert (Hsub : submitted_batches (ext_r ++ ext_s ++ ext_c ++ [Submitted batch; IsSet false])
                 = batch :: submitted_batches ext_r).
  { rewrite submitted_batches_app, submitted_batches_app, Hsub_c.
    by rewrite (submitted_batches_quiet ext_s). }
  assert (Hcheck : checkpoints (ext_r ++ ext_s ++ ext_c ++ [Submitted batch; IsSet false])
                   = checkpoints ext_r ++ checkpoints ext_s).
  { by rewrite checkpoints_app, checkpoints_app, Hcheck_c, app_nil_r. }
  rewrite Hsub, Hcheck, Htrace_r, Htrace_s. cbn [concat].
  split; [same_history|]. split; [|split; [|split; [|split; [|split; [|split; [|split]]]]]].
  - rewrite Hconcat_r. subst batch. destruct (decide (current + size ≤ total_subs + 1)).
    + rewrite Z.min_l by lia. apply range_app. lia.
    + rewrite Z.min_r by lia. rewrite (range_empty (current + size)) by lia.
      by rewrite app_nil_r.
  - destruct (decide (current + size ≤ total_subs + 1)); lia.
  - by constructor.
  - intros Ht. by apply Hagree_r, Hagree_c.
  - apply Forall_app. split.
    + eapply Forall_impl; [exact Hbound_r|]. intros c Hc. simpl in Hc. lia.
    + destruct Hcheck_s as [-> | ->]; [done|]. constructor; [lia | done].
  - apply descending_app; [done | |].
    + destruct Hcheck_s as [-> | ->]; by cbn.
    + intros a b Ha Hb. rewrite Forall_forall in Hbound_r. apply Hbound_r in Ha.
      destruct Hcheck_s as [Heq | Heq]; rewrite Heq in Hb.
      * by apply elem_of_nil in Hb.
      * apply list_elem_of_singleton in Hb. lia.
  - intros Hall. specialize (Hlen Hall). specialize (Hmost_r Hall).
    destruct (decide (current + size ≤ total_subs + 1)); lia.
  - intros Hfault Hquiet Hfuel.
    assert (Hquiet_r : IsSet true ∉ ext_r).
    { intros Hin. apply Hquiet. rewrite elem_of_app. by left. }
    assert (Hquiet_c : IsSet true ∉ ext_c).
    { intros Hin. apply Hquiet. rewrite !elem_of_app. auto. }
    destruct (Hfull_r Hfault Hquiet_r) as [Hnext Hcount_r]; [lia|].
    split; [destruct (decide (current + size ≤ total_subs + 1)); lia|].
    intros Hall. rewrite (Hcount_r Hall), (Hcount_c Hquiet_c), (Hlen Hall).
    destruct (decide (current + size ≤ total_subs + 1)); lia.
Qed.

End Ledger.

(** ** The retry rounds and the end of a run *)

Section EndOfEveryRun.

Variable env : Environment.
Variable settings : Settings.t.

Lemma retry_items_count (current_failed : list Z) (retry_success : Z)
    (succeeded remaining : list Z) (st : Orchestrator) :
  let '(retry_success', _, remaining', _) :=
    retry_items env settings current_failed retry_success succeeded remaining st in
  retry_success ≤ retry_success' ∧
  (retry_success' - retry_success) + Z.of_nat (length remaining')
  ≤ Z.of_nat (length remaining) + Z.of_nat (length current_failed).
Proof.
  revert retry_success succeeded remaining st.
  induction current_failed as [|idx rest IH]; intros retry_success succeeded remaining st.
  { cbn. lia. }
  cbn [retry_items].
  destruct (is_set env st) as [flag st1]. destruct flag; [cbn [length]; lia|].
  destruct (process_request env settings idx st1) as [result st2].
  assert (Hfail :
    let '(retry_success', _, remaining', _) :=
      retry_items env settings rest retry_success succeeded (remaining ++ [idx]) st2 in
    retry_success ≤ retry_success' ∧
    (retry_success' - retry_success) + Z.of_nat (length remaining')
    ≤ Z.of_nat (length remaining) + Z.of_nat (length (idx :: rest))).
  { specialize (IH retry_success succeeded (remaining ++ [idx]) st2).
    destruct (retry_items env settings rest retry_success succeeded (remaining ++ [idx]) st2)
      as [[[rs' succeeded'] remaining'] st3].
    rewrite length_app in IH. cbn [length] in *. lia. }
  destruct result as [[|]|e]; [|exact Hfail..].
  specialize (IH (retry_success + 1) (succeeded ++ [idx]) remaining st2).
  destruct (retry_items env settings rest (retry_success + 1) (succeeded ++ [idx]) remaining st2)
    as [[[rs' succeeded'] remaining'] st3].
  cbn [length]. lia.
Qed.

Lemma retry_rounds_count (rounds : nat) (retry_success : Z) (remaining : list Z)
    (st : Orchestrator) :
  let '(retry_success', remaining', _, _) :=
    retry_rounds env settings rounds retry_success remaining st in
  retry_success ≤ retry_success' ∧
  (retry_success' - retry_success) + Z.of_nat (length remaining')
  ≤ Z.of_nat (length remaining).
Proof.
  revert retry_success remaining st.
  induction rounds as [|rounds IH]; intros retry_success remaining st; [cbn; lia|].
  cbn [retry_rounds].
  destruct remaining as [|idx rest]; [cbn; lia|].
  destruct (is_set env st) as [flag st1]. destruct flag; [lia|].
  pose proof (retry_items_count (idx :: rest) retry_success [] [] st1) as Hitems.
  destruct (retry_items env settings (idx :: rest) retry_success [] [] st1)
    as [[[rs succeeded] remaining'] st2].
  specialize (IH rs remaining' (if 0 <? rs then save_all st2 else st2)).
  destruct (retry_rounds env settings rounds rs remaining' _)
    as [[[rs' remaining''] history] st3].
  cbn [length] in *. lia.
Qed.

Lemma retry_failed_items_count (failed : list Z) (max_retries : Z) (st : Orchestrator) :
  0 ≤ (_retry_failed_items env settings failed max_retries st).1 ≤ Z.of_nat (length failed).
Proof.
  unfold _retry_failed_items.
  pose proof (retry_rounds_count (Z.to_nat max_retries) 0 failed st) as Hcount.
  destruct (retry_rounds env settings (Z.to_nat max_retries) 0 failed st)
    as [[[rs remaining] history] st']. cbn [fst]. lia.
Qed.

Lemma retry_not_submission (l : list Event) :
  Forall retry_event l → Forall not_submission l.
Proof. intros Hl. eapply Forall_impl; [exact Hl|]. by intros []. Qed.

Lemma checkpoints_retry (l : list Event) :
  Forall retry_event l → checkpoints l = [].
Proof. induction 1 as [|e l He _ IH]; [done|]. by destruct e. Qed.

Lemma process_request_retry_events (idx : Z) (st : Orchestrator) :
  ∃ ext, trace (process_request env settings idx st).2 = ext ++ trace st ∧
         Forall retry_event ext.
Proof.
  destruct (process_request_frame env settings idx st) as (_ & _ & ext_w & Htrace_w & Hext_w).
  exists (ext_w ++ [IsSet (is_set env st).1]). rewrite Htrace_w. split; [same_history|].
  apply Forall_app. split; [|by repeat constructor].
  eapply Forall_impl; [exact Hext_w|]. by intros [].
Qed.

Lemma retry_items_events (current_failed : list Z) (retry_success : Z)
    (succeeded remaining : list Z) (st : Orchestrator) :
  ∃ ext,
    trace (retry_items env settings current_failed retry_success succeeded remaining st).2
    = ext ++ trace st ∧ Forall retry_event ext.
Proof.
  revert retry_success succeeded remaining st.
  induction current_failed as [|idx rest IH]; intros retry_success succeeded remaining st.
  { by exists []. }
  cbn [retry_items].
  pose proof (is_set_trace env st) as Htrace_o.
  destruct (is_set env st) as [flag st1]. cbn [fst snd] in Htrace_o. destruct flag.
  { exists [IsSet true]. cbn [snd]. rewrite Htrace_o. by repeat constructor. }
  destruct (process_request_retry_events idx st1) as (ext_p & Htrace_p & Hext_p).
  destruct (process_request env settings idx st1) as [result st2]. cbn [snd] in Htrace_p.
  assert (Hnext : ∀ rs succeeded' remaining',
            ∃ ext, trace (retry_items env settings rest rs succeeded' remaining' st2).2
                   = ext ++ trace st ∧ Forall retry_event ext).
  { intros rs succeeded' remaining'.
    destruct (IH rs succeeded' remaining' st2) as (ext & Htrace & Hext).
    exists (ext ++ ext_p ++ [IsSet false]). rewrite Htrace, Htrace_p, Htrace_o.
    split; [same_history|]. apply Forall_app. split; [done|].
    apply Forall_app. split; [done | by repeat constructor]. }
  destruct result as [[|]|e]; apply Hnext.
Qed.

Lemma retry_rounds_events (rounds : nat) (retry_success : Z) (remaining : list Z)
    (st : Orchestrator) :
  ∃ ext,
    trace (retry_rounds env settings rounds retry_success remaining st).2 = ext ++ trace st ∧
    Forall retry_event ext.
Proof.
  revert retry_success remaining st.
  induction rounds as [|rounds IH]; intros retry_success remaining st; [by exists []|].
  cbn [retry_rounds]. destruct remaining as [|idx rest]; [by exists []|].
  pose proof (is_set_trace env st) as Htrace_o.
  destruct (is_set env st) as [flag st1]. cbn [fst snd] in Htrace_o. destruct flag.
  { exists [IsSet true]. cbn [snd]. rewrite Htrace_o. by repeat constructor. }
  destruct (retry_items_events (idx :: rest) retry_success [] [] st1)
    as (ext_i & Htrace_i & Hext_i).
  destruct (retry_items env settings (idx :: rest) retry_success [] [] st1)
    as [[[rs succeeded] remaining'] st2]. cbn [snd] in Htrace_i.
  assert (Hsave : ∃ ext_s,
            trace (if 0 <? rs then save_all st2 else st2) = ext_s ++ trace st ∧
            Forall retry_event ext_s).
  { destruct (0 <? rs).
    - exists (SavedAll :: ext_i ++ [IsSet false]). unfold save_all, log. cbn [trace].
      rewrite Htrace_i, Htrace_o. split; [same_history|]. constructor; [done|].
      apply Forall_app. split; [done | by repeat constructor].
    - exists (ext_i ++ [IsSet false]). rewrite Htrace_i, Htrace_o. split; [same_history|].
      apply Forall_app. split; [done | by repeat constructor]. }
  destruct Hsave as (ext_s & Htrace_s & Hext_s).
  destruct (IH rs remaining' (if 0 <? rs then save_all st2 else st2))
    as (ext_r & Htrace_r & Hext_r).
  destruct (retry_rounds env settings rounds rs remaining' _)
    as [[[rs' remaining''] history] st3]. cbn [snd] in *.
  exists (ext_r ++ ext_s). rewrite Htrace_r, Htrace_s. split; [same_history|].
  by apply Forall_app.
Qed.

Lemma retry_failed_items_events (failed : list Z) (max_retries : Z) (st : Orchestrator) :
  ∃ ext,
    trace (_retry_failed_items env settings failed max_retries st).2 = ext ++ trace st ∧
    Forall retry_event ext.
Proof.
  unfold _retry_failed_items.
  destruct (retry_rounds_events (Z.to_nat max_retries) 0 failed st) as (ext & Htrace & Hext).
  destruct (retry_rounds env settings (Z.to_nat max_retries) 0 failed st)
    as [[[rs remaining] history] st']. by exists ext.
Qed.

(** The retry rounds under the user's interrupt: what they add to the
    history, and what they return.  When they return, the number of
    successes is within bounds; they end by the interrupt only if the
    environment interrupts one of their sleeps. *)
Lemma retry_items_napping_facts (naps : nat) (current_failed : list Z) (retry_success : Z)
    (remaining : list Z) (st : Orchestrator) :
  ∃ ext,
    trace (retry_items_napping env settings naps current_failed retry_success remaining st).2
    = ext ++ trace st ∧
    Forall retry_event ext ∧
    match (retry_items_napping env settings naps current_failed retry_success
             remaining st).1.1 with
    | Some (retry_success', remaining') =>
        retry_success ≤ retry_success' ∧
        (retry_success' - retry_success) + Z.of_nat (length remaining')
        ≤ Z.of_nat (length remaining) + Z.of_nat (length current_failed)
    | None => ∃ n, nap env n = true
    end.
Proof.
  revert naps retry_success remaining st.
  induction current_failed as [|idx rest IH]; intros naps retry_success remaining st.
  { exists []. cbn. split; [done|]. split; [done | lia]. }
  cbn [retry_items_napping].
  pose proof (is_set_trace env st) as Htrace_o.
  destruct (is_set env st) as [flag st1]. cbn [fst snd] in Htrace_o. destruct flag.
  { exists [IsSet true]. cbn [fst snd length]. rewrite Htrace_o.
    split; [done|]. split; [by repeat constructor | lia]. }
  destruct (process_request_retry_events idx st1) as (ext_p & Htrace_p & Hext_p).
  destruct (process_request env settings idx st1) as [result st2]. cbn [snd] in Htrace_p.
  assert (Hnext : ∀ naps' rs remaining',
    retry_success ≤ rs ∧
    (rs - retry_success) + Z.of_nat (length remaining') ≤ Z.of_nat (length remaining) + 1 →
    ∃ ext,
      trace (retry_items_napping env settings naps' rest rs remaining' st2).2
      = ext ++ trace st ∧
      Forall retry_event ext ∧
      match (retry_items_napping env settings naps' rest rs remaining' st2).1.1 with
      | Some (retry_success', remaining'') =>
          retry_success ≤ retry_success' ∧
          (retry_success' - retry_success) + Z.of_nat (length remaining'')
          ≤ Z.of_nat (length remaining) + Z.of_nat (length (idx :: rest))
      | None => ∃ n, nap env n = true
      end).
  { intros naps' rs remaining' Hrs.
    destruct (IH naps' rs remaining' st2) as (ext & Htrace & Hext & Hres).
    exists (ext ++ ext_p ++ [IsSet false]). rewrite Htrace, Htrace_p, Htrace_o.
    split; [same_history|]. split.
    { apply Forall_app. split; [done|].
      apply Forall_app. split; [done | by repeat constructor]. }
    destruct ((retry_items_napping env settings naps' rest rs remaining' st2).1.1)
      as [[rs' remaining'']|]; [|done].
    cbn [length]. lia. }
  destruct result as [ok|e].
  - destruct (nap env naps) eqn:Hnap.
    + exists (ext_p ++ [IsSet false]). cbn [fst snd]. rewrite Htrace_p, Htrace_o.
      split; [same_history|]. split; [|by exists naps].
      apply Forall_app. split; [done | by repeat constructor].
    + destruct ok; apply Hnext; rewrite ?length_app; cbn [length]; lia.
  - apply Hnext. rewrite length_app. cbn [length]. lia.
Qed.

Lemma retry_rounds_napping_facts (rounds naps : nat) (retry_success : Z)
    (remaining : list Z) (st : Orchestrator) :
  ∃ ext,
    trace (retry_rounds_napping env settings rounds naps retry_success remaining st).2
    = ext ++ trace st ∧
    Forall retry_event ext ∧
    match (retry_rounds_napping env settings rounds naps retry_success remaining st).1.1 with
    | Some retry_success' =>
        retry_success ≤ retry_success' ≤ retry_success + Z.of_nat (length remaining)
    | None => ∃ n, nap env n = true
    end.
Proof.
  revert naps retry_success remaining st.
  induction rounds as [|rounds IH]; intros naps retry_success remaining st.
  { exists []. cbn. split; [done|]. split; [done | lia]. }
  cbn [retry_rounds_napping]. destruct remaining as [|idx rest].
  { exists []. cbn. split; [done|]. split; [done | lia]. }
  pose proof (is_set_trace env st) as Htrace_o.
  destruct (is_set env st) as [flag st1]. cbn [fst snd] in Htrace_o. destruct flag.
  { exists [IsSet true]. cbn [fst snd]. rewrite Htrace_o.
    split; [done|]. split; [by repeat constructor | lia]. }
  destruct (retry_items_napping_facts naps (idx :: rest) retry_success [] st1)
    as (ext_i & Htrace_i & Hext_i & Hres_i).
  destruct (retry_items_napping env settings naps (idx :: rest) retry_success [] st1)
    as [[[[rs remaining']|] naps'] st2]; cbn [fst snd] in Htrace_i, Hres_i.
  2:{ exists (ext_i ++ [IsSet false]). cbn [fst snd]. rewrite Htrace_i, Htrace_o.
      split; [same_history|]. split; [|done].
      apply Forall_app. split; [done | by repeat constructor]. }
  assert (Hsave : ∃ ext_s,
            trace (if 0 <? rs then save_all st2 else st2) = ext_s ++ trace st ∧
            Forall retry_event ext_s).
  { destruct (0 <? rs).
    - exists (SavedAll :: ext_i ++ [IsSet false]). unfold save_all, log. cbn [trace].
      rewrite Htrace_i, Htrace_o. split; [same_history|]. constructor; [done|].
      apply Forall_app. split; [done | by repeat constructor].
    - exists (ext_i ++ [IsSet false]). rewrite Htrace_i, Htrace_o. split; [same_history|].
      apply Forall_app. split; [done | by repeat constructor]. }
  destruct Hsave as (ext_s & Htrace_s & Hext_s).
  assert (Hnext : ∀ naps'',
    ∃ ext,
      trace (retry_rounds_napping env settings rounds naps'' rs remaining'
               (if 0 <? rs then save_all st2 else st2)).2 = ext ++ trace st ∧
      Forall retry_event ext ∧
      match (retry_rounds_napping env settings rounds naps'' rs remaining'
               (if 0 <? rs then save_all st2 else st2)).1.1 with
      | Some retry_success' =>
          retry_success ≤ retry_success'
          ≤ retry_success + Z.of_nat (length (idx :: rest))
      | None => ∃ n, nap env n = true
      end).
  { intros naps''.
    destruct (IH naps'' rs remaining' (if 0 <? rs then save_all st2 else st2))
      as (ext_r & Htrace_r & Hext_r & Hres_r).
    exists (ext_r ++ ext_s). rewrite Htrace_r, Htrace_s. split; [same_history|].
    split; [by apply Forall_app|].
    destruct ((retry_rounds_napping env settings rounds naps'' rs remaining' _).1.1)
      as [rs'|]; [|done].
    cbn [length] in *. lia. }
  destruct remaining' as [|idx' rest']; [apply Hnext|].
  destruct rounds as [|rounds']; [apply Hnext|].
  destruct (nap env naps') eqn:Hnap; [|apply Hnext].
  exists ext_s. cbn [fst snd]. split; [done|]. split; [done | by exists naps'].
Qed.

Lemma retry_phase_facts (t : Tally) (st : Orchestrator) :
  ∃ ext,
    trace (retry_phase env settings t st).2 = ext ++ trace st ∧
    Forall retry_event ext ∧
    match (retry_phase env settings t st).1 with
    | Some retry_success => 0 ≤ retry_success ≤ Z.of_nat (length (failed_indices t))
    | None => ∃ n, nap env n = true
    end.
Proof.
  unfold retry_phase. destruct (failed_indices t) as [|idx rest].
  { exists []. cbn. split; [done|]. split; [done | lia]. }
  pose proof (is_set_trace env st) as Htrace_o.
  destruct (is_set env st) as [flag st1]. cbn [fst snd] in Htrace_o. destruct flag.
  { exists [IsSet true]. cbn [fst snd]. rewrite Htrace_o.
    split; [done|]. split; [by repeat constructor | cbn [length]; lia]. }
  unfold _retry_failed_items_napping.
  destruct (retry_rounds_napping_facts (Z.to_nat DEFAULT_RETRY_ROUNDS) 0 0 (idx :: rest) st1)
    as (ext & Htrace & Hext & Hres).
  destruct (retry_rounds_napping env settings (Z.to_nat DEFAULT_RETRY_ROUNDS) 0 0
              (idx :: rest) st1) as [[rs naps] st2]. cbn [fst snd] in *.
  exists (ext ++ [IsSet false]). rewrite Htrace, Htrace_o. split; [same_history|].
  split; [|exact Hres].
  apply Forall_app. split; [done | by repeat constructor].
Qed.

(** Without the interrupt the rounds are those of [_retry_failed_items]. *)
Lemma retry_items_napping_calm (naps : nat) (current_failed : list Z) (retry_success : Z)
    (succeeded remaining : list Z) (st : Orchestrator) :
  (∀ n, nap env n = false) →
  let '(retry_success', _, remaining', st') :=
    retry_items env settings current_failed retry_success succeeded remaining st in
  ∃ naps',
    retry_items_napping env settings naps current_failed retry_success remaining st
    = (Some (retry_success', remaining'), naps', st').
Proof.
  intros Hcalm. revert naps retry_success succeeded remaining st.
  induction current_failed as [|idx rest IH]; intros naps retry_success succeeded remaining st.
  { by exists naps. }
  cbn [retry_items retry_items_napping].
  destruct (is_set env st) as [flag st1]. destruct flag; [by exists naps|].
  destruct (process_request env settings idx st1) as [result st2].
  destruct result as [[|]|e]; rewrite ?Hcalm; apply IH.
Qed.

Lemma retry_rounds_napping_calm (rounds naps : nat) (retry_success : Z)
    (remaining : list Z) (st : Orchestrator) :
  (∀ n, nap env n = false) →
  let '(retry_success', _, _, st') :=
    retry_rounds env settings rounds retry_success remaining st in
  ∃ naps',
    retry_rounds_napping env settings rounds naps retry_success remaining st
    = (Some retry_success', naps', st').
Proof.
  intros Hcalm. revert naps retry_success remaining st.
  induction rounds as [|rounds IH]; intros naps retry_success remaining st.
  { by exists naps. }
  cbn [retry_rounds retry_rounds_napping].
  destruct remaining as [|idx rest]; [by exists naps|].
  destruct (is_set env st) as [flag st1]. destruct flag; [by exists naps|].
  pose proof (retry_items_napping_calm naps (idx :: rest) retry_success [] [] st1 Hcalm)
    as Hitems.
  destruct (retry_items env settings (idx :: rest) retry_success [] [] st1)
    as [[[rs succeeded] remaining'] st2].
  destruct Hitems as [naps' ->].
  assert (Hnext : ∀ naps'',
    let '(retry_success', _, _, st') :=
      let '(retry_success', remaining'', history, st0) :=
        retry_rounds env settings rounds rs remaining'
          (if 0 <? rs then save_all st2 else st2) in
      (retry_success', remaining'',
       mkRound (idx :: rest) succeeded remaining' :: history, st0) in
    ∃ naps0,
      retry_rounds_napping env settings rounds naps'' rs remaining'
        (if 0 <? rs then save_all st2 else st2) = (Some retry_success', naps0, st')).
  { intros naps''.
    specialize (IH naps'' rs remaining' (if 0 <? rs then save_all st2 else st2)).
    by destruct (retry_rounds env settings rounds rs remaining' _)
      as [[[rs' remaining''] history] st3]. }
  destruct remaining' as [|idx' rest']; [apply Hnext|].
  destruct rounds as [|rounds']; [apply Hnext|].
  rewrite Hcalm. apply Hnext.
Qed.

Lemma retry_failed_items_napping_calm (failed : list Z) (max_retries : Z)
    (st : Orchestrator) :
  (∀ n, nap env n = false) →
  _retry_failed_items_napping env settings failed max_retries st
  = (Some (_retry_failed_items env settings failed max_retries st).1,
     (_retry_failed_items env settings failed max_retries st).2).
Proof.
  intros Hcalm. unfold _retry_failed_items_napping, _retry_failed_items.
  pose proof (retry_rounds_napping_calm (Z.to_nat max_retries) 0 0 failed st Hcalm) as Hrounds.
  destruct (retry_rounds env settings (Z.to_nat max_retries) 0 failed st)
    as [[[rs remaining] history] st'].
  by destruct Hrounds as [naps' ->].
Qed.

(** What follows the [with] block.  An interrupt during the retry rounds
    ends the [try] block there.  Otherwise the final checkpoint at the
    total, the save and the statistics follow: with no segment the
    statistics divide by zero, with a segment they are printed. *)
Lemma finish_run_events (total_subs : Z) (t : Tally) (st : Orchestrator) :
  ∃ older,
    trace (retry_phase env settings t st).2 = older ++ trace st ∧
    Forall retry_event older ∧
    match (retry_phase env settings t st).1 with
    | None =>
        (∃ n, nap env n = true) ∧
        finish_run env settings total_subs t st
        = (Some KeyboardInterrupt, (retry_phase env settings t st).2)
    | Some retry_success =>
        0 ≤ retry_success ≤ Z.of_nat (length (failed_indices t)) ∧
        ∃ last p,
          trace (finish_run env settings total_subs t st).2
          = last :: SavedAll :: SavedProgress p :: older ++ trace st ∧
          a_index p = total_subs ∧
          total_input_tokens (finish_run env settings total_subs t st).2
          = total_input_tokens (retry_phase env settings t st).2 ∧
          total_output_tokens (finish_run env settings total_subs t st).2
          = total_output_tokens (retry_phase env settings t st).2 ∧
          shutdown_event (finish_run env settings total_subs t st).2
          = shutdown_event (retry_phase env settings t st).2 ∧
          ((total_subs = 0 ∧
            (finish_run env settings total_subs t st).1 = Some (Failure "ZeroDivisionError") ∧
            last = PrintedUntilRate 0 (success_count t) retry_success
                     (Z.of_nat (length (failed_indices t)) - retry_success)) ∨
           (total_subs ≠ 0 ∧
            (finish_run env settings total_subs t st).1 = None ∧
            ∃ s, last = Printed s ∧
              stat_total s = total_subs ∧
              stat_initial_success s = success_count t ∧
              stat_retry_success s = retry_success ∧
              stat_total_success s = stat_initial_success s + stat_retry_success s ∧
              stat_final_failed s
              = Z.of_nat (length (failed_indices t)) - stat_retry_success s ∧
              stat_input_tokens s = total_input_tokens (retry_phase env settings t st).2 ∧
              stat_output_tokens s = total_output_tokens (retry_phase env settings t st).2))
    end.
Proof.
  unfold finish_run.
  destruct (retry_phase_facts t st) as (older & Htrace & Holder & Hres).
  exists older. split; [done|]. split; [done|].
  destruct (retry_phase env settings t st) as [[rs|] st1]; cbn [fst snd] in *; [|done].
  split; [done|].
  unfold _print_statistics, save_all, save_progress, log.
  destruct (Z.eqb_spec total_subs 0) as [Hzero | Hsome];
    cbn [fst snd trace total_input_tokens total_output_tokens shutdown_event].
  - eexists _, _. rewrite Htrace. split; [reflexivity|]. repeat (split; [done|]).
    left. by rewrite Hzero.
  - eexists _, _. rewrite Htrace. split; [reflexivity|]. repeat (split; [done|]).
    right. split; [done|]. split; [done|]. eexists. by repeat split.
Qed.

(** [run_batch_translation], with the call of the batch loop that it
    makes. *)
Lemma run_batch_translation_eq (start_index worker_count batch_size save_interval : option Z)
    (st : Orchestrator) :
  run_batch_translation env settings start_index worker_count batch_size save_interval st
  = let '(fault, st) :=
      if or_default worker_count (Settings.worker_count settings) <=? 0
      then (Some (Failure "ValueError"), st)
      else
        let '(fault, t, pending, st) :=
          batch_loop env settings
            (Z.to_nat (total_subtitles env - effective_start env start_index + 1)) 0
            (total_subtitles env) (or_default batch_size (Settings.batch_size settings))
            (or_default save_interval (Settings.save_interval settings))
            (effective_start env start_index) (mkTally 0 0 []) st in
        let st := drain env settings pending st in
        match fault with
        | Some f => (Some f, st)
        | None => finish_run env settings (total_subtitles env) t st
        end in
    let st :=
      match fault with
      | Some KeyboardInterrupt => set_shutdown st
      | Some (Failure _) => set_shutdown st
      | None => st
      end in
    (fault, set_shutdown st).
Proof. reflexivity. Qed.

(** A pool without workers: the run ends at once in the handler of
    [Exception]. *)
Lemma run_without_workers (start_index worker_count batch_size save_interval : option Z)
    (st : Orchestrator) :
  or_default worker_count (Settings.worker_count settings) ≤ 0 →
  run_batch_translation env settings start_index worker_count batch_size save_interval st
  = (Some (Failure "ValueError"), set_shutdown (set_shutdown st)).
Proof.
  intros Hworkers. rewrite run_batch_translation_eq.
  by destruct (Z.leb_spec (or_default worker_count (Settings.worker_count settings)) 0);
    [|lia].
Qed.

Lemma effective_start_cases (start_index : option Z) :
  (effective_start env start_index = 1 ∨
   start_index = Some (effective_start env start_index)) ∧
  (1 ≤ total_subtitles env → 1 ≤ effective_start env start_index ≤ total_subtitles env) ∧
  (total_subtitles env < 1 → effective_start env start_index = 1).
Proof.
  unfold effective_start, or_default, load_progress.
  destruct start_index as [v|]; [destruct (Z.eqb_spec v 0)|];
    repeat match goal with
           | |- context [?a <=? ?b] => destruct (Z.leb_spec a b)
           end; cbn [andb]; (split; [auto | lia]).
Qed.

(** What a run with a pool adds to the history after the pool is left, in
    the three ways it can go: a fault of the batch loop ends the run
    there; an interrupt during the retry rounds ends it with the events of
    these rounds only; otherwise the final checkpoint, the save and the
    statistics follow, and the run ends without a fault unless there is no
    segment. *)
Lemma run_tail (start_index worker_count batch_size save_interval : option Z)
    (st : Orchestrator) :
  0 < or_default worker_count (Settings.worker_count settings) →
  let loop :=
    batch_loop env settings
      (Z.to_nat (total_subtitles env - effective_start env start_index + 1)) 0
      (total_subtitles env) (or_default batch_size (Settings.batch_size settings))
      (or_default save_interval (Settings.save_interval settings))
      (effective_start env start_index) (mkTally 0 0 []) st in
  let left := drain env settings loop.1.2 loop.2 in
  let run :=
    run_batch_translation env settings start_index worker_count batch_size save_interval st in
  ∃ tail,
    trace run.2 = tail ++ trace left ∧
    ((∃ f, loop.1.1.1 = Some f ∧ run.1 = Some f ∧ tail = []) ∨
     (loop.1.1.1 = None ∧ run.1 = Some KeyboardInterrupt ∧ Forall retry_event tail ∧
      ∃ n, nap env n = true) ∨
     (loop.1.1.1 = None ∧
      ∃ last p older,
        tail = last :: SavedAll :: SavedProgress p :: older ∧
        Forall retry_event older ∧ a_index p = total_subtitles env ∧
        ((total_subtitles env = 0 ∧ run.1 = Some (Failure "ZeroDivisionError") ∧
          ∃ a b c, last = PrintedUntilRate 0 a b c) ∨
         (total_subtitles env ≠ 0 ∧ run.1 = None ∧
          ∃ s, last = Printed s ∧
            stat_total s = total_subtitles env ∧
            stat_initial_success s = success_count loop.1.1.2 ∧
            0 ≤ stat_retry_success s ≤ Z.of_nat (length (failed_indices loop.1.1.2)) ∧
            stat_total_success s = stat_initial_success s + stat_retry_success s ∧
            stat_final_failed s
            = Z.of_nat (length (failed_indices loop.1.1.2)) - stat_retry_success s ∧
            stat_input_tokens s = total_input_tokens run.2 ∧
            stat_output_tokens s = total_output_tokens run.2)))).
Proof.
  intros Hworkers loop left run. subst run left. rewrite run_batch_translation_eq.
  destruct (Z.leb_spec (or_default worker_count (Settings.worker_count settings)) 0); [lia|].
  fold loop. destruct loop as [[[fault_l t1] pending] st1]. cbn [fst snd].
  destruct fault_l as [f|].
  { exists []. split; [by destruct f|]. left. by exists f. }
  destruct (finish_run_events (total_subtitles env) t1 (drain env settings pending st1))
    as (older & Htrace_r & Holder & Hres).
  destruct (retry_phase env settings t1 (drain env settings pending st1)) as [[rs|] st2];
    cbn [fst snd] in *.
  2:{ destruct Hres as [Hnap ->]. exists older. cbn [fst snd]. split; [done|].
      right. left. by repeat split. }
  destruct Hres as (Hrs & last & p & Htrace & Hp & Hin & Hout & _ & Hend).
  destruct (finish_run env settings (total_subtitles env) t1 (drain env settings pending st1))
    as [fault st3]. cbn [fst snd] in *.
  exists (last :: SavedAll :: SavedProgress p :: older).
  destruct Hend as [(Hzero & -> & ->) | (Hsome & -> & s & -> & Htotal & Hinitial & Hretry
                                         & Hsum & Hfinal & Hsin & Hsout)].
  - cbn [fst snd]. split; [exact Htrace|]. right. right. split; [done|].
    exists (PrintedUntilRate 0 (success_count t1) rs
              (Z.of_nat (length (failed_indices t1)) - rs)), p, older.
    split; [done|]. split; [done|]. split; [done|]. left. split; [done|].
    split; [done|]. by eexists _, _, _.
  - cbn [fst snd]. split; [exact Htrace|]. right. right. split; [done|].
    exists (Printed s), p, older. split; [done|]. split; [done|]. split; [done|].
    right. split; [done|]. split; [done|]. exists s. split; [done|]. split; [done|].
    split; [done|]. split; [by rewrite Hretry|]. split; [done|]. split; [done|].
    unfold set_shutdown. cbn [total_input_tokens total_output_tokens].
    by rewrite Hin, Hout.
Qed.

(** The same, as far as the submissions, the checkpoints and the
    statistics go, counted from the end of the batch loop. *)
Lemma run_after_loop (start_index worker_count batch_size save_interval : option Z)
    (st : Orchestrator) :
  0 < or_default worker_count (Settings.worker_count settings) →
  let loop :=
    batch_loop env settings
      (Z.to_nat (total_subtitles env - effective_start env start_index + 1)) 0
      (total_subtitles env) (or_default batch_size (Settings.batch_size settings))
      (or_default save_interval (Settings.save_interval settings))
      (effective_start env start_index) (mkTally 0 0 []) st in
  let run :=
    run_batch_translation env settings start_index worker_count batch_size save_interval st in
  ∃ tail,
    trace run.2 = tail ++ trace loop.2 ∧ Forall not_submission tail ∧
    (checkpoints tail = [] ∨ checkpoints tail = [total_subtitles env]) ∧
    (run.1 = None →
     loop.1.1.1 = None ∧ total_subtitles env ≠ 0 ∧
     checkpoints tail = [total_subtitles env] ∧
     ∃ s older, tail = Printed s :: older ∧
       stat_total s = total_subtitles env ∧
       stat_initial_success s = success_count loop.1.1.2 ∧
       0 ≤ stat_retry_success s ≤ Z.of_nat (length (failed_indices loop.1.1.2)) ∧
       stat_total_success s = stat_initial_success s + stat_retry_success s ∧
       stat_final_failed s
       = Z.of_nat (length (failed_indices loop.1.1.2)) - stat_retry_success s).
Proof.
  intros Hworkers loop run.
  destruct (run_tail start_index worker_count batch_size save_interval st Hworkers)
    as (tail & Htrace & Hcases).
  fold loop run in Htrace, Hcases.
  destruct (drain_events env settings loop.1.2 loop.2) as (ext_d & Htrace_d & Hext_d & _).
  exists (tail ++ ext_d). rewrite Htrace, Htrace_d. split; [by rewrite app_assoc|].
  assert (Hdrained : Forall not_submission ext_d ∧ checkpoints ext_d = []).
  { split; [by apply collect_not_submission | by apply checkpoints_collect]. }
  destruct Hdrained as [Hquiet_d Hcheck_d]. rewrite checkpoints_app, Hcheck_d, app_nil_r.
  destruct Hcases as [(f & Hloop & Hrun & ->) | [(Hloop & Hrun & Htail & _)
                     | (Hloop & last & p & older & -> & Holder & Hp & Hend)]].
  - split; [done|]. split; [by left|]. rewrite Hrun. done.
  - split; [apply Forall_app; split; [by apply retry_not_submission | done]|].
    split; [left; by apply checkpoints_retry|]. rewrite Hrun. done.
  - assert (Hcheck : checkpoints older = []) by by apply checkpoints_retry.
    assert (Hquiet : Forall not_submission older) by by apply retry_not_submission.
    destruct Hend as [(Hzero & Hrun & a & b & c & ->) | (Hsome & Hrun & s & -> & Hstat)].
    + split; [apply Forall_app; split; [by repeat constructor | done]|].
      cbn [checkpoints]. rewrite Hcheck, Hp. split; [by right|]. rewrite Hrun. done.
    + split; [apply Forall_app; split; [by repeat constructor | done]|].
      cbn [checkpoints]. rewrite Hcheck, Hp. split; [by right|].
      intros _. split; [done|]. split; [done|]. split; [done|].
      exists s, (SavedAll :: SavedProgress p :: older ++ ext_d).
      destruct Hstat as (Htotal & Hinitial & Hretry & Hsum & Hfinal & _).
      split; [done|]. split; [done|]. split; [done|]. split; [done|]. by split.
Qed.





End EndOfEveryRun.

(** ** Shutdown and the end of a run *)





(** The same two segments without the interrupt: the history ends with the
    final checkpoint, the save and the statistics. *)
Example calm_run_ends_with_statistics :
  ∃ older,
    trace (run_batch_translation Sample.calm Sample.settings None None None None initial).2
    = Printed (mkStatistics 2 2 0 2 0 20 10) :: SavedAll
      :: SavedProgress (mkProgress "en" 2 "openai/gpt-oss-20b" 20 10) :: older.
Proof. vm_compute. by eexists. Qed.

(** The interrupt can also arrive after a batch loop that ended well: here
    during the sleep that follows the first retried item.  The run ends in
    the handler of [KeyboardInterrupt]; with a save interval of 5 no
    checkpoint at all has been written, and nothing is printed. *)
Example interrupted_retry_skips_final_save :
  let '(fault, st') :=
    run_batch_translation Cases.interrupted_retry Sample.one_attempt None None None (Some 5)
      initial in
  fault = Some KeyboardInterrupt ∧
  submitted_batches (trace st') = [[1; 2]; [3]] ∧
  checkpoints (trace st') = [] ∧
  head (trace st') = Some (MarkedFailed 1).
Proof. by vm_compute. Qed.

(** ** What a run submits, counts and saves *)

(** X9: in every run, however it ends, the batches that are submitted are
    the consecutive pieces of one range of indices: put one after the other
    in the order of submission they give the indices from the start index
    up to some index, each once and in ascending order.  The range never
    goes past the last segment, no batch is empty and none is longer than
    the batch size.  The start index is the one asked for when that is from
    1 to the number of segments, and 1 otherwise. *)
Theorem submitted_batches_are_consecutive (env : Environment) (settings : Settings.t)
    (start_index worker_count batch_size save_interval : option Z) (st : Orchestrator) :
  ∃ ext next,
    trace (run_batch_translation env settings start_index worker_count batch_size
             save_interval st).2 = ext ++ trace st ∧
    concat (submitted_batches ext) = range (effective_start env start_index) next ∧
    effective_start env start_index ≤ next
    ≤ Z.max (effective_start env start_index) (total_subtitles env + 1) ∧
    Forall (batch_within (or_default batch_size (Settings.batch_size settings)))
      (submitted_batches ext) ∧
    (effective_start env start_index = 1 ∨
     (start_index = Some (effective_start env start_index) ∧
      1 ≤ effective_start env start_index ≤ total_subtitles env)).
Proof.
  assert (Hstart : effective_start env start_index = 1 ∨
                   (start_index = Some (effective_start env start_index) ∧
                    1 ≤ effective_start env start_index ≤ total_subtitles env)).
  { destruct (effective_start_cases env start_index) as ([Hone | Hgiven] & Hin & Hout);
      [by left|].
    destruct (decide (1 ≤ total_subtitles env)) as [Hsome | Hnone].
    - right. split; [done | by apply Hin].
    - left. apply Hout. lia. }
  destruct (Z.leb_spec (or_default worker_count (Settings.worker_count settings)) 0)
    as [Hnone | Hworkers].
  { rewrite (run_without_workers env settings _ _ _ _ _ Hnone).
    exists [], (effective_start env start_index).
    cbn [app submitted_batches concat]. rewrite range_empty by lia.
    split; [done|]. split; [done|]. split; [lia|]. by split. }
  destruct (run_after_loop env settings start_index worker_count batch_size save_interval st
              Hworkers) as (tail & Htrace & Htail & _).
  pose proof (batch_loop_ledger env settings
                (Z.to_nat (total_subtitles env - effective_start env start_index + 1)) 0
                (total_subtitles env) (or_default batch_size (Settings.batch_size settings))
                (or_default save_interval (Settings.save_interval settings))
                (effective_start env start_index) (mkTally 0 0 []) st) as Hledger.
  destruct (batch_loop _ _ _ _ _ _ _ _ _ _) as [[[fault t1] pending] st1].
  cbn [fst snd] in Htrace.
  destruct Hledger as (ext & next & Htrace_l & Hconcat & Hnext & Hwithin & _).
  exists (tail ++ ext), next. rewrite Htrace, Htrace_l.
  rewrite submitted_batches_app, (submitted_batches_quiet tail), app_nil_r by done.
  split; [by rewrite app_assoc|]. split; [done|]. split; [done|]. by split.
Qed.

(** X10: when [as_completed] yields every future it was given and the run
    ends without a fault, the history of the run ends with the statistics,
    and these add up: no count is negative, the total of the successes is
    the sum of the first successes and the retried ones, and successes and
    final failures together are at most the number of segments from the
    start index on.  When in addition no read of the flag found it set,
    they are exactly that number, and every index from the start index to
    the last segment was submitted, once.  The statistics give the number
    of all the segments as their total, also when the run started later. *)
Theorem statistics_account_for_items (env : Environment) (settings : Settings.t)
    (start_index worker_count batch_size save_interval : option Z) (st : Orchestrator)
    (ext : list Event) :
  (∀ n batch, length (completion env n batch) = length batch) →
  0 ≤ total_subtitles env →
  (run_batch_translation env settings start_index worker_count batch_size
     save_interval st).1 = None →
  trace (run_batch_translation env settings start_index worker_count batch_size
           save_interval st).2 = ext ++ trace st →
  ∃ s older,
    ext = Printed s :: older ∧
    stat_total s = total_subtitles env ∧
    0 ≤ stat_initial_success s ∧ 0 ≤ stat_retry_success s ∧ 0 ≤ stat_final_failed s ∧
    stat_total_success s = stat_initial_success s + stat_retry_success s ∧
    stat_total_success s + stat_final_failed s
    ≤ total_subtitles env - effective_start env start_index + 1 ∧
    (IsSet true ∉ ext →
     stat_total_success s + stat_final_failed s
     = total_subtitles env - effective_start env start_index + 1 ∧
     concat (submitted_batches ext)
     = range (effective_start env start_index) (total_subtitles env + 1)).
Proof.
  intros Hall Htotal Hfault Hext.
  destruct (Z.leb_spec (or_default worker_count (Settings.worker_count settings)) 0)
    as [Hnone | Hworkers].
  { by rewrite (run_without_workers env settings _ _ _ _ _ Hnone) in Hfault. }
  destruct (run_after_loop env settings start_index worker_count batch_size save_interval st
              Hworkers) as (tail & Htrace & Htail & _ & Hend).
  specialize (Hend Hfault). clear Hfault.
  pose proof (batch_loop_ledger env settings
                (Z.to_nat (total_subtitles env - effective_start env start_index + 1)) 0
                (total_subtitles env) (or_default batch_size (Settings.batch_size settings))
                (or_default save_interval (Settings.save_interval settings))
                (effective_start env start_index) (mkTally 0 0 []) st) as Hledger.
  destruct (batch_loop _ _ _ _ _ _ _ _ _ _) as [[[fault t1] pending] st1].
  cbn [fst snd] in Htrace, Hend.
  destruct Hledger as (ext_l & next & Htrace_l & Hconcat & Hnext & _ & Hagree & _ & _
                       & Hmost & Hfull).
  destruct Hend as (-> & Hsome & _ & s & older & -> & Hs_total & Hs_initial & Hs_retry
                    & Hs_sum & Hs_final).
  assert (ext = (Printed s :: older) ++ ext_l) as ->.
  { apply (app_inv_tail (trace st)). rewrite <- Hext, Htrace, Htrace_l. same_history. }
  destruct (effective_start_cases env start_index) as (_ & Hin & _).
  specialize (Hin ltac:(lia)).
  destruct Hagree as [Hprocessed Hsuccess]; [by split|].
  specialize (Hmost Hall). cbn [processed_count] in Hmost.
  exists s, (older ++ ext_l). split; [done|]. split; [done|].
  split; [lia|]. split; [lia|]. split; [lia|]. split; [done|]. split; [lia|].
  intros Hquiet.
  destruct Hfull as [Hlast Hcount]; [done | | lia |].
  { intros Hin_l. apply Hquiet. rewrite elem_of_app. by right. }
  specialize (Hcount Hall). cbn [processed_count] in Hcount.
  split; [lia|].
  rewrite submitted_batches_app, (submitted_batches_quiet (Printed s :: older)), app_nil_r
    by done.
  rewrite Hconcat, Hlast. f_equal. lia.
Qed.

Lemma statistics_account_for_items_witness :
  ∃ s older,
    trace (run_batch_translation Sample.flaky Sample.one_attempt
             None None None None initial).2 = Printed s :: older ∧
    stat_total_success s + stat_final_failed s = 3.
Proof.
  destruct (statistics_account_for_items Sample.flaky Sample.one_attempt
              None None None None initial
              (trace (run_batch_translation Sample.flaky Sample.one_attempt
                        None None None None initial).2))
    as (s & older & Hext & _ & _ & _ & _ & _ & _ & Hquiet).
  - done.
  - done.
  - by vm_compute.
  - by rewrite app_nil_r.
  - exists s, older. split; [exact Hext|].
    destruct Hquiet as [Hsum _]; [|exact Hsum].
    vm_compute. intros Hin.
    repeat (apply elem_of_cons in Hin as [Hin | Hin]; [discriminate|]).
    by apply elem_of_nil in Hin.
Defined.

(** X11: the checkpoints that a run writes to the index file.  The
    periodic ones carry strictly growing indices, each at least the start
    index plus the batch size and at most the number of segments plus the
    batch size, so possibly past the last segment.  A run that reaches its
    end writes one more, last, with the number of segments: it may be
    smaller than the periodic one before it.  A run that ends without a
    fault always writes it. *)
Theorem checkpoints_of_a_run (env : Environment) (settings : Settings.t)
    (start_index worker_count batch_size save_interval : option Z) (st : Orchestrator) :
  ∃ ext periodic,
    trace (run_batch_translation env settings start_index worker_count batch_size
             save_interval st).2 = ext ++ trace st ∧
    descending periodic ∧
    Forall (λ c, effective_start env start_index
                 + or_default batch_size (Settings.batch_size settings) ≤ c
                 ≤ total_subtitles env
                   + or_default batch_size (Settings.batch_size settings)) periodic ∧
    (checkpoints ext = periodic ∨ checkpoints ext = total_subtitles env :: periodic) ∧
    ((run_batch_translation env settings start_index worker_count batch_size
        save_interval st).1 = None →
     checkpoints ext = total_subtitles env :: periodic).
Proof.
  destruct (Z.leb_spec (or_default worker_count (Settings.worker_count settings)) 0)
    as [Hnone | Hworkers].
  { rewrite (run_without_workers env settings _ _ _ _ _ Hnone).
    exists [], []. cbn [checkpoints descending]. split; [done|]. split; [done|].
    split; [done|]. split; [by left | done]. }
  destruct (run_after_loop env settings start_index worker_count batch_size save_interval st
              Hworkers) as (tail & Htrace & _ & Hcheck & Hend).
  pose proof (batch_loop_ledger env settings
                (Z.to_nat (total_subtitles env - effective_start env start_index + 1)) 0
                (total_subtitles env) (or_default batch_size (Settings.batch_size settings))
                (or_default save_interval (Settings.save_interval settings))
                (effective_start env start_index) (mkTally 0 0 []) st) as Hledger.
  destruct (batch_loop _ _ _ _ _ _ _ _ _ _) as [[[fault t1] pending] st1].
  cbn [fst snd] in Htrace.
  destruct Hledger as (ext_l & next & Htrace_l & _ & _ & _ & _ & Hbound & Hdesc & _).
  exists (tail ++ ext_l), (checkpoints ext_l). rewrite Htrace, Htrace_l, checkpoints_app.
  split; [by rewrite app_assoc|]. split; [done|]. split; [done|]. split.
  - destruct Hcheck as [-> | ->]; auto.
  - intros Hfault. destruct (Hend Hfault) as (_ & _ & -> & _). done.
Qed.

Lemma checkpoints_of_a_run_witness :
  ∃ ext,
    trace (run_batch_translation Sample.flaky Sample.settings
             None None None (Some 1) initial).2 = ext ∧
    checkpoints ext = [3; 5; 3].
Proof.
  destruct (checkpoints_of_a_run Sample.flaky Sample.settings None None None (Some 1) initial)
    as (ext & periodic & Htrace & _ & _ & _ & Hend).
  exists ext. rewrite app_nil_r in Htrace. split; [exact Htrace|].
  rewrite <- Htrace. by vm_compute.
Defined.

(** ** Once the flag is set *)

Lemma is_set_when_set (env : Environment) (st : Orchestrator) :
  shutdown_event st = true →
  is_set env st
  = (true, mkOrchestrator true (total_input_tokens st) (total_output_tokens st)
             (S (observed st)) (attempts st) (IsSet true :: trace st)).
Proof. unfold is_set. by intros ->. Qed.

(** X12: a run on an orchestrator whose flag is set, as it is after every
    run, translates nothing.  With a pool of at least one worker and at
    least one segment it reads the flag once, calls no worker and no
    backend, and still writes the final checkpoint with the number of
    segments, saves, and prints statistics that count no success and no
    failure; it ends without a fault. *)
Theorem run_after_shutdown_translates_nothing (env : Environment) (settings : Settings.t)
    (start_index worker_count batch_size save_interval : option Z) (st : Orchestrator) :
  shutdown_event st = true →
  0 < or_default worker_count (Settings.worker_count settings) →
  1 ≤ total_subtitles env →
  let '(fault, st') :=
    run_batch_translation env settings start_index worker_count batch_size save_interval st in
  fault = None ∧
  shutdown_event st' = true ∧
  attempts st' = attempts st ∧
  total_input_tokens st' = total_input_tokens st ∧
  total_output_tokens st' = total_output_tokens st ∧
  trace st'
  = Printed (mkStatistics (total_subtitles env) 0 0 0 0
               (total_input_tokens st) (total_output_tokens st))
    :: SavedAll
    :: SavedProgress (mkProgress (String.concat "," (Settings.lang_codes_list settings))
                        (total_subtitles env) (Settings.model_name settings)
                        (total_input_tokens st) (total_output_tokens st))
    :: IsSet true :: trace st.
Proof.
  intros Hflag Hworkers Htotal. rewrite run_batch_translation_eq.
  destruct (Z.leb_spec (or_default worker_count (Settings.worker_count settings)) 0); [lia|].
  destruct (effective_start_cases env start_index) as (_ & Hin & _). specialize (Hin Htotal).
  destruct (Z.to_nat (total_subtitles env - effective_start env start_index + 1))
    as [|fuel] eqn:Hfuel; [lia|].
  cbn [batch_loop].
  destruct (Z.leb_spec (effective_start env start_index) (total_subtitles env)); [|lia].
  rewrite (is_set_when_set env st Hflag). cbn [drain].
  unfold finish_run, retry_phase. cbn [failed_indices success_count length].
  unfold _print_statistics, save_all, save_progress, log, set_shutdown.
  destruct (Z.eqb_spec (total_subtitles env) 0) as [Hzero | _]; [lia|].
  cbn [trace shutdown_event attempts total_input_tokens total_output_tokens].
  by repeat split.
Qed.

Lemma run_after_shutdown_translates_nothing_witness :
  let st := (run_batch_translation Sample.calm Sample.settings None None None None initial).2 in
  attempts (run_batch_translation Sample.calm Sample.settings None None None None st).2
  = attempts st.
Proof.
  intros st.
  pose proof (run_after_shutdown_translates_nothing Sample.calm Sample.settings
                None None None None st) as Hagain.
  destruct (run_batch_translation Sample.calm Sample.settings None None None None st)
    as [fault st'].
  destruct Hagain as (_ & _ & Hattempts & _).
  - by vm_compute.
  - by vm_compute.
  - by vm_compute.
  - exact Hattempts.
Defined.

(** X13: the retry rounds.  The number of successes that
    [_retry_failed_items] returns is not negative and not larger than the
    number of indices it was given.  The rounds only read the flag, run
    workers and save the segment store: they submit nothing to a pool,
    write no checkpoint and print no statistics.  With a number of rounds
    that is zero or negative, nothing happens at all. *)
Theorem retry_success_within_bounds (env : Environment) (settings : Settings.t)
    (failed : list Z) (max_retries : Z) (st : Orchestrator) :
  0 ≤ (_retry_failed_items env settings failed max_retries st).1 ≤ Z.of_nat (length failed) ∧
  (∃ ext,
     trace (_retry_failed_items env settings failed max_retries st).2 = ext ++ trace st ∧
     Forall retry_event ext ∧ submitted_batches ext = [] ∧ checkpoints ext = []) ∧
  (max_retries ≤ 0 → _retry_failed_items env settings failed max_retries st = (0, st)).
Proof.
  split; [apply retry_failed_items_count|]. split.
  - destruct (retry_failed_items_events env settings failed max_retries st)
      as (ext & Htrace & Hext).
    exists ext. split; [done|]. split; [done|]. split.
    + by apply submitted_batches_quiet, retry_not_submission.
    + by apply checkpoints_retry.
  - intros Hnone. unfold _retry_failed_items.
    by replace (Z.to_nat max_retries) with 0%nat by lia.
Qed.

Lemma retry_success_within_bounds_witness :
  _retry_failed_items Sample.dead Sample.settings [1; 2; 3] (-1) initial = (0, initial).
Proof.
  destruct (retry_success_within_bounds Sample.dead Sample.settings [1; 2; 3] (-1) initial)
    as (_ & _ & Hnone).
  apply Hnone. lia.
Defined.

(** X14: a manual retry on an orchestrator whose flag is set, as it is
    after every run, retries nothing: [_retry_failed_items] returns 0,
    no worker and no backend is called, and the history gains at most one
    read of the flag. *)
Theorem manual_retry_after_shutdown_is_void (env : Environment) (settings : Settings.t)
    (failed : list Z) (max_retries : Z) (st : Orchestrator) :
  shutdown_event st = true →
  (_retry_failed_items env settings failed max_retries st).1 = 0 ∧
  manual_retry_failed env settings failed max_retries st
  = (_retry_failed_items env settings failed max_retries st).2 ∧
  attempts (manual_retry_failed env settings failed max_retries st) = attempts st ∧
  total_input_tokens (manual_retry_failed env settings failed max_retries st)
  = total_input_tokens st ∧
  total_output_tokens (manual_retry_failed env settings failed max_retries st)
  = total_output_tokens st ∧
  (trace (manual_retry_failed env settings failed max_retries st) = trace st ∨
   trace (manual_retry_failed env settings failed max_retries st) = IsSet true :: trace st).
Proof.
  intros Hflag. unfold manual_retry_failed, _retry_failed_items.
  destruct failed as [|idx rest].
  { destruct (Z.to_nat max_retries); cbn; by repeat split; auto. }
  destruct (Z.to_nat max_retries) as [|rounds].
  { cbn. by repeat split; auto. }
  cbn [retry_rounds]. rewrite (is_set_when_set env st Hflag). cbn.
  by repeat split; auto.
Qed.

Lemma manual_retry_after_shutdown_is_void_witness :
  let st := (run_batch_translation Sample.dead Sample.settings None None None None initial).2 in
  attempts (manual_retry_failed Sample.dead Sample.settings [1; 2; 3] 5 st) = attempts st.
Proof.
  intros st.
  destruct (manual_retry_after_shutdown_is_void Sample.dead Sample.settings [1; 2; 3] 5 st)
    as (_ & _ & Hattempts & _).
  - by vm_compute.
  - exact Hattempts.
Defined.

(** ** Runs that end in the handler of [Exception] *)

Lemma collect_not_saved (l : list Event) : Forall collect_event l → SavedAll ∉ l.
Proof. intros Hl Hin. rewrite Forall_forall in Hl. by apply Hl in Hin. Qed.

(** X15: with no segment at all, a run with a pool of at least one
    worker submits nothing, writes the final checkpoint with index 0,
    saves, and then fails in the statistics, whose success rate divides by
    the number of segments: the run ends in the handler of [Exception] with
    [ZeroDivisionError], whatever its other arguments are. *)
Theorem run_without_segments (env : Environment) (settings : Settings.t)
    (start_index worker_count batch_size save_interval : option Z) (st : Orchestrator) :
  total_subtitles env = 0 →
  0 < or_default worker_count (Settings.worker_count settings) →
  let '(fault, st') :=
    run_batch_translation env settings start_index worker_count batch_size save_interval st in
  fault = Some (Failure "ZeroDivisionError") ∧
  shutdown_event st' = true ∧
  attempts st' = attempts st ∧
  trace st'
  = PrintedUntilRate 0 0 0 0
    :: SavedAll
    :: SavedProgress (mkProgress (String.concat "," (Settings.lang_codes_list settings))
                        0 (Settings.model_name settings)
                        (total_input_tokens st) (total_output_tokens st))
    :: trace st.
Proof.
  intros Hzero Hworkers. rewrite run_batch_translation_eq.
  destruct (Z.leb_spec (or_default worker_count (Settings.worker_count settings)) 0); [lia|].
  destruct (effective_start_cases env start_index) as (_ & _ & Hout).
  rewrite Hout, Hzero by lia.
  replace (Z.to_nat (0 - 1 + 1)) with 0%nat by lia.
  cbn [batch_loop drain].
  unfold finish_run, retry_phase. cbn [failed_indices success_count length].
  unfold _print_statistics, save_all, save_progress, log, set_shutdown.
  cbn [Z.eqb trace shutdown_event attempts total_input_tokens total_output_tokens].
  by repeat split.
Qed.

Lemma run_without_segments_witness :
  (run_batch_translation Cases.empty Sample.settings None None None None initial).1
  = Some (Failure "ZeroDivisionError").
Proof.
  pose proof (run_without_segments Cases.empty Sample.settings None None None None initial)
    as Hrun.
  destruct (run_batch_translation _ _ _ _ _ _ _) as [fault st'].
  destruct Hrun as [Hfault _]; [reflexivity | by vm_compute | exact Hfault].
Defined.

(** X16: with a batch size that is zero or negative after the defaults, a
    pool of at least one worker, at least one segment and the flag not set,
    the first batch is empty and
    [batch[0]] raises [IndexError]: the run ends in the handler of
    [Exception] after its first read of the flag.  Nothing is submitted,
    translated, saved or printed. *)
Theorem run_with_empty_batches (env : Environment) (settings : Settings.t)
    (start_index worker_count batch_size save_interval : option Z) (st : Orchestrator) :
  or_default batch_size (Settings.batch_size settings) ≤ 0 →
  0 < or_default worker_count (Settings.worker_count settings) →
  1 ≤ total_subtitles env →
  (is_set env st).1 = false →
  let '(fault, st') :=
    run_batch_translation env settings start_index worker_count batch_size save_interval st in
  fault = Some (Failure "IndexError") ∧
  shutdown_event st' = true ∧
  attempts st' = attempts st ∧
  trace st' = IsSet false :: trace st.
Proof.
  intros Hsize Hworkers Htotal Hflag. rewrite run_batch_translation_eq.
  destruct (Z.leb_spec (or_default worker_count (Settings.worker_count settings)) 0); [lia|].
  destruct (effective_start_cases env start_index) as (_ & Hin & _). specialize (Hin Htotal).
  destruct (Z.to_nat (total_subtitles env - effective_start env start_index + 1))
    as [|fuel] eqn:Hfuel; [lia|].
  cbn [batch_loop].
  destruct (Z.leb_spec (effective_start env start_index) (total_subtitles env)); [|lia].
  pose proof (is_set_trace env st) as Htrace.
  assert (Hattempts : attempts (is_set env st).2 = attempts st) by done.
  destruct (is_set env st) as [flag st1]. cbn [fst snd] in *. subst flag.
  rewrite range_empty by lia. cbn [drain]. unfold set_shutdown.
  cbn [trace shutdown_event attempts]. by repeat split.
Qed.

Lemma run_with_empty_batches_witness :
  (run_batch_translation Sample.calm Sample.settings None None (Some (-2)) None initial).1
  = Some (Failure "IndexError").
Proof.
  pose proof (run_with_empty_batches Sample.calm Sample.settings None None (Some (-2)) None
                initial) as Hrun.
  destruct (run_batch_translation _ _ _ _ _ _ _) as [fault st'].
  destruct Hrun as [Hfault _];
    [by vm_compute | by vm_compute | by vm_compute | reflexivity | exact Hfault].
Defined.

(** X17: with a save interval that is zero after the defaults, a pool of
    at least one worker, a positive batch size, at least one segment, the
    flag not set and no interrupt
    during the first batch, the run submits its first batch, collects it,
    and then the test of the periodic save divides by zero: the run ends in
    the handler of [Exception] with [ZeroDivisionError].  Exactly one batch
    was submitted, and no checkpoint was written and the segment store was
    never saved, although the workers of that batch have run. *)
Theorem run_with_zero_save_interval (env : Environment) (settings : Settings.t)
    (start_index worker_count batch_size save_interval : option Z) (st : Orchestrator) :
  or_default save_interval (Settings.save_interval settings) = 0 →
  0 < or_default worker_count (Settings.worker_count settings) →
  0 < or_default batch_size (Settings.batch_size settings) →
  1 ≤ total_subtitles env →
  (is_set env st).1 = false →
  interrupt env 0 = None →
  let '(fault, st') :=
    run_batch_translation env settings start_index worker_count batch_size save_interval st in
  fault = Some (Failure "ZeroDivisionError") ∧
  shutdown_event st' = true ∧
  ∃ ext,
    trace st' = ext ++ trace st ∧
    submitted_batches ext
    = [range (effective_start env start_index)
         (Z.min (effective_start env start_index
                 + or_default batch_size (Settings.batch_size settings))
            (total_subtitles env + 1))] ∧
    checkpoints ext = [] ∧
    (SavedAll ∉ ext).
Proof.
  intros Hinterval Hworkers Hsize Htotal Hflag Hcalm. rewrite run_batch_translation_eq.
  destruct (Z.leb_spec (or_default worker_count (Settings.worker_count settings)) 0); [lia|].
  destruct (effective_start_cases env start_index) as (_ & Hin & _). specialize (Hin Htotal).
  destruct (Z.to_nat (total_subtitles env - effective_start env start_index + 1))
    as [|fuel] eqn:Hfuel; [lia|].
  cbn [batch_loop].
  destruct (Z.leb_spec (effective_start env start_index) (total_subtitles env)); [|lia].
  pose proof (is_set_trace env st) as Htrace_o.
  destruct (is_set env st) as [flag st1]. cbn [fst snd] in *. subst flag.
  destruct (range _ _) as [|first others] eqn:Hbatch.
  { unfold range in Hbatch. rewrite seqZ_cons in Hbatch by lia. done. }
  rewrite <- Hbatch. clear Hbatch first others. rewrite Hcalm.
  set (batch := range _ _).
  pose proof (collect_ledger env settings (completion env 0 batch) (mkTally 0 0 [])
                (log (Submitted batch) st1)) as Hcollect.
  destruct (collect _ _ _ _ _) as [[t1 pending] st2].
  destruct Hcollect as (ext_c & Htrace_c & Hext_c & _).
  unfold log in Htrace_c. cbn [trace] in Htrace_c. rewrite Htrace_o in Htrace_c.
  rewrite Hinterval. cbn [Z.eqb].
  destruct (drain_events env settings pending st2) as (ext_d & Htrace_d & Hext_d & _).
  split; [done|]. split; [done|].
  exists (ext_d ++ ext_c ++ [Submitted batch; IsSet false]).
  unfold set_shutdown. cbn [trace]. rewrite Htrace_d, Htrace_c.
  split; [same_history|]. split; [|split].
  - rewrite !submitted_batches_app, (submitted_batches_quiet ext_c),
      (submitted_batches_quiet ext_d) by by apply collect_not_submission.
    by rewrite !app_nil_r.
  - rewrite !checkpoints_app, (checkpoints_collect ext_c), (checkpoints_collect ext_d) by done.
    done.
  - rewrite !elem_of_app, !elem_of_cons.
    intros [Hsaved | [Hsaved | [Hsaved | [Hsaved | Hsaved]]]]; try done.
    + exact (collect_not_saved _ Hext_d Hsaved).
    + exact (collect_not_saved _ Hext_c Hsaved).
    + by apply elem_of_nil in Hsaved.
Qed.

Lemma run_with_zero_save_interval_witness :
  (run_batch_translation Sample.calm Cases.never_saving None None None None initial).1
  = Some (Failure "ZeroDivisionError").
Proof.
  pose proof (run_with_zero_save_interval Sample.calm Cases.never_saving None None None None
                initial) as Hrun.
  destruct (run_batch_translation _ _ _ _ _ _ _) as [fault st'].
  destruct Hrun as [Hfault _];
    [reflexivity | by vm_compute | by vm_compute | by vm_compute | reflexivity | reflexivity
    | exact Hfault].
Defined.

(** ** The list of failed indices *)

(** X18: when [as_completed] yields every future of a batch exactly once,
    the indices that the batch loop appends to its list of failed items,
    which is the list that [run_batch_translation] hands to the retry
    rounds, are pairwise distinct and none is below the index the loop
    started from; and there are never more of them than items counted as
    processed. *)
Theorem failed_list_is_duplicate_free (env : Environment) (settings : Settings.t)
    (fuel batch_no : nat) (total_subs batch_size save_interval current_index : Z)
    (t : Tally) (st : Orchestrator) :
  (∀ n batch, completion env n batch ≡ₚ batch) →
  let t' :=
    (batch_loop env settings fuel batch_no total_subs batch_size save_interval
       current_index t st).1.1.2 in
  (∃ l, failed_indices t' = failed_indices t ++ l ∧ NoDup l ∧
        ∀ idx, idx ∈ l → current_index ≤ idx) ∧
  (tally_consistent t →
   Z.of_nat (length (failed_indices t')) ≤ processed_count t' ∧
   processed_count t' = success_count t' + Z.of_nat (length (failed_indices t'))).
Proof.
  intros Honce t'. split.
  - apply (batch_loop_failed_distinct env settings Honce).
  - intros Ht. subst t'.
    pose proof (batch_loop_ledger env settings fuel batch_no total_subs batch_size
                  save_interval current_index t st) as Hledger.
    destruct (batch_loop _ _ _ _ _ _ _ _ _ _) as [[[fault t1] pending] st1].
    destruct Hledger as (ext & next & _ & _ & _ & _ & Hagree & _).
    destruct (Hagree Ht) as [Hsum Hsuccess]. cbn [fst snd]. lia.
Qed.

Lemma failed_list_is_duplicate_free_witness :
  NoDup (failed_indices
           (batch_loop Sample.dead Sample.one_attempt 3 0 3 2 2 1 (mkTally 0 0 []) initial).1.1.2).
Proof.
  destruct (failed_list_is_duplicate_free Sample.dead Sample.one_attempt 3 0 3 2 2 1
              (mkTally 0 0 []) initial) as [(l & Hl & Hnodup & _) _].
  - intros n batch. reflexivity.
  - rewrite Hl. exact Hnodup.
Defined.
